(** * Parallel.ipynb / Optimizing notebook: a shallow embedding

    The two notebooks of the repository define a handful of small functions
    (an interpolation kernel in several execution styles, a memoised
    function, a Mandelbrot loop, two hashing drivers).  This file embeds
    them as Rocq functions and proves the properties the specification
    states about them.

    Conventions.
    - A float64 is a primitive [float]; [+ - * /] are the IEEE operations.
    - A one-dimensional [numpy] array of float64 is a [list float].
    - A Python call that may raise is a function into [Py.result]; the
      exception is the left injection.
    - Functions of the libraries that the repository only calls ([exp],
      [hypot], the PBKDF2 hash) are section variables, one per backend
      where several backends bring their own.
    - What the source leaves to the machine (the arithmetic a fast-math
      compilation emits, the memory behind a buffer, which pool tasks had
      started when the others were cancelled) is a variable as well. *)

From Stdlib Require Import ZArith List String Ascii Bool Lia Floats.
Import ListNotations.

(** ** Exceptions and the result monad *)

Module Py.

Inductive exn : Type :=
| ValueError        (* numpy: operands could not be broadcast together *)
| ZeroDivisionError (* numba, Python error model: division by zero *)
| TypeError         (* unsupported operand type(s) *)
| KeyError          (* numexpr: a name of the expression is unbound *)
| SyntaxError       (* numexpr: the expression does not parse *)
| NotImplementedError (* numexpr: construct outside the modelled fragment *)
| OverflowError
| LibraryError (code : Z). (* any other error a library call reports *)

Definition result (A : Type) : Type := (exn + A)%type.

Definition ret {A} (a : A) : result A := inr a.
Definition raise {A} (e : exn) : result A := inl e.

Definition bind {A B} (m : result A) (k : A -> result B) : result B :=
  match m with
  | inl e => inl e
  | inr a => k a
  end.

(** [for x in xs: s = body x s], stopping at the first exception. *)
Fixpoint for_each {X S} (xs : list X) (body : X -> S -> result S) (s : S)
  : result S :=
  match xs with
  | [] => ret s
  | x :: xs' => bind (body x s) (for_each xs' body)
  end.

End Py.

Declare Scope py_scope.
Delimit Scope py_scope with py.
Notation "x <- m ;; k" := (Py.bind m (fun x => k))
  (at level 61, m at next level, right associativity) : py_scope.

Import Py.
Open Scope py_scope.

(** ** numpy arrays *)

Module Np.

Open Scope float_scope.

Definition ndarray : Type := list float.

(** [np.zeros(n)] *)
Definition zeros (n : nat) : ndarray := repeat 0%float n.

(** [a[i]] without bounds check, as compiled by Cython under
    [boundscheck(False)] and by numba: nothing is raised for an index
    outside the buffer, the loop goes on with the float64 found at that
    address.  [stray i] is that float64, for an index [i] past the end. *)
Definition unchecked_get (stray : nat -> float) (a : ndarray) (i : nat) : float :=
  nth i a (stray i).

(** [a[i] = v] for [i] inside the buffer (the loops below only write at
    indices below the length of the array they allocated). *)
Fixpoint setitem (a : ndarray) (i : nat) (v : float) : ndarray :=
  match a, i with
  | [], _ => []
  | _ :: a', O => v :: a'
  | u :: a', S i' => u :: setitem a' i' v
  end.

(** Elementwise application of a unary ufunc. *)
Definition ufunc1 (f : float -> float) (a : ndarray) : ndarray := map f a.

(** [a op s] for an array and a Python scalar. *)
Definition array_scalar (op : float -> float -> float) (a : ndarray) (s : float)
  : ndarray := map (fun u => op u s) a.

Fixpoint zip_with (op : float -> float -> float) (a b : ndarray) : ndarray :=
  match a, b with
  | u :: a', v :: b' => op u v :: zip_with op a' b'
  | _, _ => []
  end.

(** [a op b] for two one-dimensional arrays, with numpy's broadcasting:
    equal shapes combine elementwise, a shape of [(1,)] stretches, any
    other pair of shapes raises [ValueError]. *)
Definition array_array (op : float -> float -> float) (a b : ndarray)
  : result ndarray :=
  if Nat.eqb (List.length a) (List.length b) then ret (zip_with op a b)
  else match a, b with
       | _, [v] => ret (map (fun u => op u v) a)
       | [u], _ => ret (map (fun v => op u v) b)
       | _, _ => raise ValueError
       end.

(** [a ** 2]: numpy dispatches the scalar exponent 2 to [np.square], the
    product of each element with itself. *)
Definition square (a : ndarray) : ndarray := ufunc1 (fun u => u * u) a.

End Np.

(** ** The interpolation kernel *)

Module Interp.

Import Np.
Open Scope float_scope.

Section WithLibm.

(** The exponential of the numerical library the function is linked with:
    numpy's ufunc, [exp] of the C library, the one numba lowers [np.exp]
    to.  Each function below takes its own. *)
Variable exp : float -> float.

(** The float64 in memory behind the buffer of an array. *)
Variable stray : nat -> float.

(** The closed form as the specification writes it,
    [y = (exp(y0^2) (x1 - x) + y1 (x - x0)) / (x1 - x0)], on one pair of
    elements.  The functions below are compared with it. *)
Definition spec_formula (x0 x1 x : float) (a b : float) : float :=
  (exp (a * a) * (x1 - x) + b * (x - x0)) / (x1 - x0).

(** [[
    def linear_interpolate(y0, y1, x0, x1, x):
        return (np.exp(y0**2) * (x1 - x) + y1 * (x - x0))  / (x1 - x0)
    ]] *)
Definition linear_interpolate (y0 y1 : ndarray) (x0 x1 x : float)
  : result ndarray :=
  let lhs := array_scalar PrimFloat.mul (ufunc1 exp (square y0)) (x1 - x) in
  let rhs := array_scalar PrimFloat.mul y1 (x - x0) in
  num <- array_array PrimFloat.add lhs rhs ;;
  ret (array_scalar PrimFloat.div num (x1 - x0)).

(** [[
    @cython.boundscheck(False)
    @cython.wraparound(False)
    @cython.nonecheck(False)
    @cython.cdivision(True)
    def linear_cython(double[::1] y0, double[::1] y1,
                      double x0, double x1, double x):
        cdef Py_ssize_t i
        cdef Py_ssize_t y_max = y0.shape[0]
        result = np.zeros(y0.shape[0], dtype=np.float64)
        cdef double[::1] result_view = result
        for i in range(y_max):
            result_view[i] = (exp(y0[i] * y0[i]) * (x1 - x) + y1[i] * (x - x0))  / (x1 - x0)
        return result
    ]]
    [cdivision(True)] makes [/] the division of C: no test of the divisor,
    the IEEE quotient. *)
Definition linear_cython (y0 y1 : ndarray) (x0 x1 x : float)
  : result ndarray :=
  let y_max := List.length y0 in
  let result := zeros (List.length y0) in
  for_each (seq 0 y_max)
    (fun i result_view =>
       let a := unchecked_get stray y0 i in
       let b := unchecked_get stray y1 i in
       ret (setitem result_view i
              ((exp (a * a) * (x1 - x) + b * (x - x0)) / (x1 - x0))))
    result.

(** True division of two float64 in code compiled by numba with its
    default error model, Python's: a zero divisor raises. *)
Definition numba_truediv (a b : float) : result float :=
  if PrimFloat.eqb b 0 then raise ZeroDivisionError else ret (a / b).

(** [[
    @numba.njit
    def linear_interpolate_good(y0, y1, x0, x1, x):
        out = np.zeros(y0.shape)
        for n in numba.prange(y0.shape[0]):
            out[n] = (np.exp(y0[n]**2) * (x1 - x) + y1[n] * (x - x0))  / (x1 - x0)
        return out
    ]]
    Without [parallel=True], [prange] is [range].  [y0[n]**2] with the
    literal exponent 2 is compiled to a product; indices are not
    checked. *)
Definition linear_interpolate_good (y0 y1 : ndarray) (x0 x1 x : float)
  : result ndarray :=
  let out := zeros (List.length y0) in
  for_each (seq 0 (List.length y0))
    (fun n out =>
       let a := unchecked_get stray y0 n in
       let b := unchecked_get stray y1 n in
       v <- numba_truediv (exp (a * a) * (x1 - x) + b * (x - x0)) (x1 - x0) ;;
       ret (setitem out n v))
    out.

(** What the kernel of [linear_interpolate_best] stores in [out[n]].
    [fastmath=True] lets the compiler re-associate the operations of the
    expression, multiply by a reciprocal instead of dividing, fuse a
    product with a sum and use an approximate [exp]: the source fixes the
    operands of a cell, not the rounding of its value.
    [fast_cell len n a b x0 x1 x] is the value the compiled kernel gives
    the cell [n] of an array of [len] cells (the position decides which
    part of the parallel, vectorised loop computes it) from [a = y0[n]],
    [b = y1[n]] and the scalars. *)
Variable fast_cell : nat -> nat -> float -> float -> float -> float -> float -> float.

(** [[
    @numba.njit(parallel=True, fastmath=True)
    def linear_interpolate_best(y0, y1, x0, x1, x):
        out = np.zeros(y0.shape)
        for n in numba.prange(y0.shape[0]):
            out[n] = (np.exp(y0[n]**2) * (x1 - x) + y1[n] * (x - x0))  / (x1 - x0)
        return out
    ]]
    The body of the [prange] loop becomes the kernel of a parallel loop,
    in which no division raises.  Its iterations write distinct cells, so
    their order does not matter and the model runs them in index order. *)
Definition linear_interpolate_best (y0 y1 : ndarray) (x0 x1 x : float)
  : result ndarray :=
  let out := zeros (List.length y0) in
  for_each (seq 0 (List.length y0))
    (fun n out =>
       let a := unchecked_get stray y0 n in
       let b := unchecked_get stray y1 n in
       ret (setitem out n (fast_cell (List.length y0) n a b x0 x1 x)))
    out.

End WithLibm.

End Interp.

(** ** numexpr: expressions compiled from a string

    [ne.evaluate(src)] parses [src], binds its names in the frame of the
    caller and evaluates the expression over whole arrays.  The model covers
    the fragment the notebook uses: names, integer literals as exponents,
    [+ - * / **], unary sign, parentheses and the call [exp(...)]. *)

Module Numexpr.

Import Np.
Open Scope float_scope.

Inductive token : Type :=
| TName (s : string)
| TInt (n : Z)
| TPlus | TMinus | TStar | TSlash | TPow | TLParen | TRParen.

(** What the lexer has read of the token under way. *)
Inductive pending : Type :=
| PNothing
| PName (acc : string)
| PNum (n : Z)
| PStar.

Definition flush (p : pending) : list token :=
  match p with
  | PNothing => []
  | PName acc => [TName acc]
  | PNum n => [TInt n]
  | PStar => [TStar]
  end.

Definition is_letter (c : ascii) : bool :=
  let n := nat_of_ascii c in
  ((65 <=? n) && (n <=? 90) || (97 <=? n) && (n <=? 122) || (n =? 95))%nat.

Definition is_digit (c : ascii) : bool :=
  let n := nat_of_ascii c in ((48 <=? n) && (n <=? 57))%nat.

Definition digit_value (c : ascii) : Z := Z.of_nat (nat_of_ascii c) - 48.

Definition punctuation (c : ascii) : option token :=
  if Ascii.eqb c "+" then Some TPlus
  else if Ascii.eqb c "-" then Some TMinus
  else if Ascii.eqb c "/" then Some TSlash
  else if Ascii.eqb c "(" then Some TLParen
  else if Ascii.eqb c ")" then Some TRParen
  else None.

Definition snoc (acc : string) (c : ascii) : string :=
  (acc ++ String c EmptyString)%string.

Fixpoint lex (src : string) (p : pending) : result (list token) :=
  match src with
  | EmptyString => ret (flush p)
  | String c rest =>
      if is_letter c then
        match p with
        | PName acc => lex rest (PName (snoc acc c))
        | PNum _ => raise SyntaxError
        | _ => ts <- lex rest (PName (String c EmptyString)) ;; ret (flush p ++ ts)
        end
      else if is_digit c then
        match p with
        | PName acc => lex rest (PName (snoc acc c))
        | PNum n => lex rest (PNum (10 * n + digit_value c))
        | _ => ts <- lex rest (PNum (digit_value c)) ;; ret (flush p ++ ts)
        end
      else if Ascii.eqb c "*" then
        match p with
        | PStar => ts <- lex rest PNothing ;; ret (TPow :: ts)
        | _ => ts <- lex rest PStar ;; ret (flush p ++ ts)
        end
      else if Ascii.eqb c " " then
        ts <- lex rest PNothing ;; ret (flush p ++ ts)
      else
        match punctuation c with
        | Some t => ts <- lex rest PNothing ;; ret (flush p ++ t :: ts)
        | None => raise SyntaxError
        end
  end.

Inductive binop : Type := Add | Sub | Mul | Div | Pow.

Inductive expr : Type :=
| Name (s : string)
| IntLit (n : Z)
| BinOp (op : binop) (l r : expr)
| Neg (e : expr)
| Call (f : string) (arg : expr).

(** Recursive descent with Python's precedences:
    [sum ::= prod (('+'|'-') prod)*], [prod ::= unary (('*'|'/') unary)*],
    [unary ::= ('+'|'-') unary | power], [power ::= atom ['**' unary]],
    [atom ::= NAME | NAME '(' sum ')' | INT | '(' sum ')'].
    The fuel bounds the depth of the descent. *)
Fixpoint parse_sum (fuel : nat) (ts : list token) : result (expr * list token) :=
  match fuel with
  | O => raise SyntaxError
  | S fuel' =>
      r <- parse_prod fuel' ts ;; sum_rest fuel' (fst r) (snd r)
  end
with sum_rest (fuel : nat) (l : expr) (ts : list token)
  : result (expr * list token) :=
  match fuel with
  | O => raise SyntaxError
  | S fuel' =>
      match ts with
      | TPlus :: ts' =>
          r <- parse_prod fuel' ts' ;; sum_rest fuel' (BinOp Add l (fst r)) (snd r)
      | TMinus :: ts' =>
          r <- parse_prod fuel' ts' ;; sum_rest fuel' (BinOp Sub l (fst r)) (snd r)
      | _ => ret (l, ts)
      end
  end
with parse_prod (fuel : nat) (ts : list token) : result (expr * list token) :=
  match fuel with
  | O => raise SyntaxError
  | S fuel' =>
      r <- parse_unary fuel' ts ;; prod_rest fuel' (fst r) (snd r)
  end
with prod_rest (fuel : nat) (l : expr) (ts : list token)
  : result (expr * list token) :=
  match fuel with
  | O => raise SyntaxError
  | S fuel' =>
      match ts with
      | TStar :: ts' =>
          r <- parse_unary fuel' ts' ;; prod_rest fuel' (BinOp Mul l (fst r)) (snd r)
      | TSlash :: ts' =>
          r <- parse_unary fuel' ts' ;; prod_rest fuel' (BinOp Div l (fst r)) (snd r)
      | _ => ret (l, ts)
      end
  end
with parse_unary (fuel : nat) (ts : list token) : result (expr * list token) :=
  match fuel with
  | O => raise SyntaxError
  | S fuel' =>
      match ts with
      | TMinus :: ts' => r <- parse_unary fuel' ts' ;; ret (Neg (fst r), snd r)
      | TPlus :: ts' => parse_unary fuel' ts'
      | _ =>
          r <- parse_atom fuel' ts ;;
          match snd r with
          | TPow :: ts' =>
              e <- parse_unary fuel' ts' ;; ret (BinOp Pow (fst r) (fst e), snd e)
          | _ => ret r
          end
      end
  end
with parse_atom (fuel : nat) (ts : list token) : result (expr * list token) :=
  match fuel with
  | O => raise SyntaxError
  | S fuel' =>
      match ts with
      | TName f :: TLParen :: ts' =>
          r <- parse_sum fuel' ts' ;;
          match snd r with
          | TRParen :: ts'' => ret (Call f (fst r), ts'')
          | _ => raise SyntaxError
          end
      | TName s :: ts' => ret (Name s, ts')
      | TInt n :: ts' => ret (IntLit n, ts')
      | TLParen :: ts' =>
          r <- parse_sum fuel' ts' ;;
          match snd r with
          | TRParen :: ts'' => ret (fst r, ts'')
          | _ => raise SyntaxError
          end
      | _ => raise SyntaxError
      end
  end.

Definition parse (src : string) : result expr :=
  ts <- lex src PNothing ;;
  r <- parse_sum (8 * List.length ts + 8) ts ;;
  match snd r with
  | [] => ret (fst r)
  | _ :: _ => raise SyntaxError
  end.

(** Operands are scalars (zero-dimensional) or one-dimensional arrays. *)
Inductive value : Type :=
| Scalar (v : float)
| Array (a : ndarray).

Definition frame : Type := list (string * value).

Fixpoint lookup (s : string) (fr : frame) : result value :=
  match fr with
  | [] => raise KeyError
  | (k, v) :: fr' => if String.eqb k s then ret v else lookup s fr'
  end.

(** The names of an expression, in the order of the source. *)
Fixpoint names (e : expr) : list string :=
  match e with
  | Name s => [s]
  | IntLit _ => []
  | BinOp _ l r => names l ++ names r
  | Neg a => names a
  | Call _ a => names a
  end.

Fixpoint lookups (ss : list string) (fr : frame) : result (list value) :=
  match ss with
  | [] => ret []
  | s :: ss' => v <- lookup s fr ;; vs <- lookups ss' fr ;; ret (v :: vs)
  end.

(** An array operand without elements. *)
Definition is_empty (v : value) : bool :=
  match v with
  | Array [] => true
  | _ => false
  end.

Definition broadcast (op : float -> float -> float) (l r : value) : result value :=
  match l, r with
  | Scalar u, Scalar v => ret (Scalar (op u v))
  | Array a, Scalar v => ret (Array (array_scalar op a v))
  | Scalar u, Array b => ret (Array (map (fun v => op u v) b))
  | Array a, Array b => c <- array_array op a b ;; ret (Array c)
  end.

Definition apply1 (f : float -> float) (v : value) : value :=
  match v with
  | Scalar u => Scalar (f u)
  | Array a => Array (ufunc1 f a)
  end.

Definition arith (op : binop) : option (float -> float -> float) :=
  match op with
  | Add => Some PrimFloat.add
  | Sub => Some PrimFloat.sub
  | Mul => Some PrimFloat.mul
  | Div => Some PrimFloat.div
  | Pow => None
  end.

Section WithLibm.

Variable exp : float -> float.

(** Evaluation.  A power with the literal exponent 2 is rewritten by
    numexpr's optimiser into the product of the base with itself, with
    exponent 1 into the base; other exponents, other functions and integer
    literals elsewhere are outside the modelled fragment. *)
Fixpoint eval (e : expr) (fr : frame) : result value :=
  match e with
  | Name s => lookup s fr
  | IntLit _ => raise NotImplementedError
  | BinOp Pow b (IntLit 2) => v <- eval b fr ;; broadcast PrimFloat.mul v v
  | BinOp Pow b (IntLit 1) => eval b fr
  | BinOp op l r =>
      match arith op with
      | Some f => u <- eval l fr ;; v <- eval r fr ;; broadcast f u v
      | None => raise NotImplementedError
      end
  | Neg a => v <- eval a fr ;; ret (apply1 PrimFloat.opp v)
  | Call f a =>
      if String.eqb f "exp" then v <- eval a fr ;; ret (apply1 exp v)
      else raise NotImplementedError
  end.

(** [ne.evaluate(src)]: the names of the expression are bound first; an
    array operand without elements makes the result the empty array, before
    any shape is compared; otherwise the expression is computed. *)
Definition evaluate (src : string) (local_dict : frame) : result value :=
  e <- parse src ;;
  operands <- lookups (names e) local_dict ;;
  if existsb is_empty operands then ret (Array [])
  else eval e local_dict.

(** [[
    def linear_interpolate_numexpr(y0, y1, x0, x1, x):
        import numexpr as ne
        return ne.evaluate('(exp(y0**2) * (x1 - x) + y1 * (x - x0))  / (x1 - x0)')
    ]]
    The frame handed to [evaluate] holds the five arguments. *)
Definition linear_interpolate_numexpr (y0 y1 : ndarray) (x0 x1 x : float)
  : result value :=
  evaluate "(exp(y0**2) * (x1 - x) + y1 * (x - x0))  / (x1 - x0)"
    [("y0", Array y0); ("y1", Array y1);
     ("x0", Scalar x0); ("x1", Scalar x1); ("x", Scalar x)]%string.

End WithLibm.

End Numexpr.

(** ** The Mandelbrot loop *)

Module Mandelbrot.

Open Scope float_scope.

(** A Python [complex]: real and imaginary part. *)
Definition complex : Type := (float * float)%type.

(** [_Py_c_sum] and [_Py_c_prod] of CPython. *)
Definition c_sum (a b : complex) : complex :=
  (fst a + fst b, snd a + snd b).

Definition c_prod (a b : complex) : complex :=
  (fst a * fst b - snd a * snd b, fst a * snd b + snd a * fst b).

(** A float operand of a complex operation is first made complex. *)
Definition of_float (r : float) : complex := (r, 0).

(** Conversion of an integer to float64, rounded to the nearest float64,
    ties to even: what Python does with an [int] operand of a float
    operation and numpy with an [int] stored in a float64 array, and what
    compiled code does with an int64.  (From [2^1024] on Python raises
    [OverflowError] where the rounding gives infinity; the integers
    converted here are the size of an allocated matrix and indices of loops
    that have run.) *)
Definition float_of_int (n : Z) : float :=
  SF2Prim (SpecFloat.binary_normalize prec emax n 0 false).

(** The variable [z] of the loop: the integer [0] it is initialised with,
    a [complex] after the first assignment. *)
Inductive pynum : Type :=
| PyInt (n : Z)
| PyComplex (c : complex).





(** [range(n)] as a list of Python integers. *)
Definition range (n : Z) : list Z := map Z.of_nat (seq 0 (Z.to_nat n)).


Fixpoint for_all {X S} (xs : list X) (body : X -> S -> S) (s : S) : S :=
  match xs with
  | [] => s
  | x :: xs' => for_all xs' body (body x s)
  end.



Section WithLibm.

(** [hypot] of the C library, which [np.abs] applies to a complex. *)
Variable hypot : float -> float -> float.

(** [np.abs(z) <= 10] *)
Definition abs_le_10 (z : pynum) : bool :=
  match z with
  | PyInt n => (Z.abs n <=? 10)%Z
  | PyComplex c => PrimFloat.leb (hypot (fst c) (snd c)) 10
  end.

(** [z * z + c] *)
Definition square_plus (z : pynum) (c : complex) : pynum :=
  match z with
  | PyInt n => PyComplex (c_sum (of_float (float_of_int (n * n))) c)
  | PyComplex w => PyComplex (c_sum (c_prod w w) c)
  end.

(** [[
    c = (-2 + 3. / size * j +
         1j * (1.5 - 3. / size * i))
    ]]
    The loops run only for [size >= 1], so the division has a non-zero
    divisor. *)
Definition point (size i j : Z) : complex :=
  c_sum (of_float (-2 + 3 / float_of_int size * float_of_int j))
        (c_prod (0, 1)
           (of_float (1.5 - 3 / float_of_int size * float_of_int i))).




End WithLibm.

End Mandelbrot.

(** ** The hashing drivers

    The functions below call the key-derivation function of [hashlib] and
    discard its result.  What they do is visible in the calls they make, so
    they run in a monad that records the iteration count of every call; an
    exception ends the function that does not handle it. *)

Module Hashing.

Definition bytes : Type := list Byte.byte.

(** The iteration counts handed to the library so far, oldest first. *)
Definition log : Type := list Z.

Definition M (A : Type) : Type := log -> result A * log.

Definition mret {A} (a : A) : M A := fun l => (inr a, l).

Definition mbind {A B} (m : M A) (k : A -> M B) : M B :=
  fun l =>
    match m l with
    | (inl e, l') => (inl e, l')
    | (inr a, l') => k a l'
    end.

(** [for x in xs: body(x)] *)
Fixpoint mfor {X} (xs : list X) (body : X -> M unit) : M unit :=
  match xs with
  | [] => mret tt
  | x :: xs' => mbind (body x) (fun _ => mfor xs' body)
  end.

(** [[f(x) for x in xs]] *)
Fixpoint mmap {X Y} (f : X -> M Y) (xs : list X) : M (list Y) :=
  match xs with
  | [] => mret []
  | x :: xs' =>
      mbind (f x) (fun y => mbind (mmap f xs') (fun ys => mret (y :: ys)))
  end.

(** [range(lo, hi)] *)
Definition range (lo hi : Z) : list Z :=
  map (fun k => (lo + Z.of_nat k)%Z) (seq 0 (Z.to_nat (hi - lo))).

(** Successive slices of [size] elements, as [_get_chunks] cuts the
    arguments of [Executor.map]; the fuel bounds the number of slices. *)
Fixpoint get_chunks {X} (fuel size : nat) (xs : list X) : list (list X) :=
  match fuel, xs with
  | O, _ | _, [] => []
  | S fuel', _ :: _ => firstn size xs :: get_chunks fuel' size (skipn size xs)
  end.

Section WithHashlib.

(** [hashlib.pbkdf2_hmac(hash_name, password, salt, iterations)]. *)
Variable pbkdf2_hmac : string -> bytes -> bytes -> Z -> result bytes.

Definition password : bytes :=
  [Byte.x70; Byte.x61; Byte.x73; Byte.x73; Byte.x77; Byte.x6f; Byte.x72; Byte.x64].
Definition salt : bytes := [Byte.x73; Byte.x61; Byte.x6c; Byte.x74].

(** The library call, recorded. *)
Definition call_pbkdf2 (iterations : Z) : M bytes :=
  fun l => (pbkdf2_hmac "sha256" password salt iterations, l ++ [iterations]).

(** [[
    def hash_one(n):
        for i in range(1, n):
            hashlib.pbkdf2_hmac("sha256", b"password", b"salt", i * 10000)
        return "done"
    ]] *)
Definition hash_one (n : Z) : M string :=
  mbind (mfor (range 1 n)
           (fun i => mbind (call_pbkdf2 (i * 10000)) (fun _ => mret tt)))
        (fun _ => mret "done"%string).

(** [[
    def hash_all(n):
        for i in range(n):
            hsh = hash_one(n)
        return "done"
    ]] *)
Definition hash_all (n : Z) : M string :=
  mbind (mfor (range 0 n)
           (fun i => mbind (hash_one n) (fun hsh => mret tt)))
        (fun _ => mret "done"%string).

(** Which tasks of a pool were already running when the failure of an
    earlier one cancelled those still waiting; tasks are numbered from 0 in
    the order of submission.  This is decided by the scheduling of the
    worker processes, not by the source. *)
Variable started : nat -> bool.

(** The calls of the tasks behind a failed one: a task that had started
    runs to its end, or to its own exception; the others never run. *)
Fixpoint stragglers {X Y} (fn : X -> M Y) (k : nat) (chunks : list (list X))
    (l : log) : log :=
  match chunks with
  | [] => l
  | chunk :: chunks' =>
      stragglers fn (S k) chunks'
        (if started k then snd (mmap fn chunk l) else l)
  end.

(** The tasks of [Executor.map], one per chunk: a worker computes
    [[fn(x) for x in chunk]], and the results are handed out chunk by chunk
    in the order of submission, so that the exception raised to the caller
    is the one of the first failing chunk.  The workers run concurrently
    in processes of their own; the log lists the calls task by task, not
    in the order of the clock. *)
Fixpoint pool_map {X Y} (fn : X -> M Y) (k : nat) (chunks : list (list X))
  : M (list (list Y)) :=
  match chunks with
  | [] => mret []
  | chunk :: chunks' =>
      fun l =>
        match mmap fn chunk l with
        | (inl e, l') => (inl e, stragglers fn (S k) chunks' l')
        | (inr ys, l') =>
            match pool_map fn (S k) chunks' l' with
            | (inl e, l'') => (inl e, l'')
            | (inr yss, l'') => (inr (ys :: yss), l'')
            end
        end
  end.

(** [executor.map(fn, xs, chunksize=k)] of a process pool: the arguments
    are cut into chunks, every chunk is submitted as one task, and the
    results of the chunks are chained. *)
Definition executor_map {X Y} (fn : X -> M Y) (xs : list X) (chunksize : nat)
  : M (list Y) :=
  mbind (pool_map fn 0 (get_chunks (List.length xs) chunksize xs))
        (fun rs => mret (List.concat rs)).

(** [[
    def hash_all_process(n):
        with ProcessPoolExecutor(max_workers=4) as executor:
            for arg, res in zip(range(n), executor.map(hash_one, range(n), chunksize=2)):
                pass
        return "done"
    ]] *)
Definition hash_all_process (n : Z) : M string :=
  mbind (executor_map hash_one (range 0 n) 2)
        (fun results =>
           mbind (mfor (combine (range 0 n) results) (fun _ => mret tt))
                 (fun _ => mret "done"%string)).

(** The iteration counts of the calls [hash_one(n)] makes, in order. *)
Definition calls_of_hash_one (n : Z) : list Z :=
  map (fun i => (i * 10000)%Z) (range 1 n).

(** The library calls [its] made one after the other from the log [l]:
    the exception of the first call that raises, if any, and the log at
    that point. *)
Fixpoint run_calls (its : list Z) (l : log) : option exn * log :=
  match its with
  | [] => (None, l)
  | it :: its' =>
      match pbkdf2_hmac "sha256" password salt it with
      | inl e => (Some e, l ++ [it])
      | inr _ => run_calls its' (l ++ [it])
      end
  end.

Fixpoint first_error (its : list Z) : option exn :=
  match its with
  | [] => None
  | it :: its' =>
      match pbkdf2_hmac "sha256" password salt it with
      | inl e => Some e
      | inr _ => first_error its'
      end
  end.

(** What a driver that makes the calls [its] and handles nothing
    returns. *)
Definition outcome (its : list Z) : result string :=
  match first_error its with
  | Some e => inl e
  | None => inr "done"%string
  end.

(** [m] makes exactly the library calls [its], raises what the first
    failing one raises and otherwise returns [a]. *)
Definition Replays {A} (m : M A) (its : list Z) (a : A) : Prop :=
  forall l,
    m l = match run_calls its l with
          | (Some e, l') => (inl e, l')
          | (None, l') => (inr a, l')
          end.

End WithHashlib.

End Hashing.

(** ** The memoised function

    [functools.lru_cache] keeps, for the decorated function, a bounded table
    from call keys to results.  The table and the time spent sleeping are
    the state the calls thread through. *)

Module Cache.

Open Scope float_scope.

(** The hashable values the model covers. *)
Inductive pyval : Type :=
| PNone
| PBool (b : bool)
| PInt (n : Z)
| PFloat (f : float)
| PStr (s : string).

(** Exact comparison of a float with an integer, as Python compares an
    [int] with a [float]. *)
Definition float_eq_int (f : float) (n : Z) : bool :=
  match Prim2SF f with
  | S754_zero _ => (n =? 0)%Z
  | S754_finite sg m e =>
      let mag := if sg then Z.neg m else Z.pos m in
      if (0 <=? e)%Z then (n =? mag * 2 ^ e)%Z
      else (n * 2 ^ (- e) =? mag)%Z
  | _ => false
  end.

Definition int_of_bool (b : bool) : Z := if b then 1%Z else 0%Z.

(** [a == b] *)
Definition py_eq (a b : pyval) : bool :=
  match a, b with
  | PNone, PNone => true
  | PStr s, PStr t => String.eqb s t
  | PBool x, PBool y => Bool.eqb x y
  | PBool x, PInt n | PInt n, PBool x => (int_of_bool x =? n)%Z
  | PInt m, PInt n => (m =? n)%Z
  | PFloat f, PFloat g => PrimFloat.eqb f g
  | PFloat f, PInt n | PInt n, PFloat f => float_eq_int f n
  | PFloat f, PBool x | PBool x, PFloat f => float_eq_int f (int_of_bool x)
  | _, _ => false
  end.

(** [x * 2] *)
Definition mul2 (x : pyval) : result pyval :=
  match x with
  | PNone => raise TypeError
  | PBool b => ret (PInt (int_of_bool b * 2))
  | PInt n => ret (PInt (n * 2))
  | PFloat f => ret (PFloat (f * 2))
  | PStr s => ret (PStr (s ++ s))
  end.

(** The key of a call with the single argument [x] (untyped cache, no
    keyword): an exact [int] or [str] is its own key, any other argument
    is kept in the one-element tuple of the arguments. *)
Inductive key : Type :=
| Bare (x : pyval)
| Args (x : pyval).

Definition make_key (x : pyval) : key :=
  match x with
  | PInt _ | PStr _ => Bare x
  | _ => Args x
  end.

(** Two keys meet in the table when they are equal: a bare key never
    equals a tuple, tuples are equal when their elements are.  (The table
    tries the identity of the two objects before [==]; among the values of
    [pyval] the two differ for a NaN only, which is not equal to itself.
    A [pyval] has no identity: every argument stands for an object of its
    own.) *)
Definition key_eq (k1 k2 : key) : bool :=
  match k1, k2 with
  | Bare a, Bare b | Args a, Args b => py_eq a b
  | _, _ => false
  end.

Record world : Type := {
  table : list (key * pyval); (* most recently used first *)
  sleeps : nat                (* calls of [time.sleep(0.1)] so far *)
}.

Definition initial : world := {| table := []; sleeps := 0 |}.

Definition M (A : Type) : Type := world -> result A * world.

Definition time_sleep : M unit :=
  fun w => (inr tt, {| table := table w; sleeps := S (sleeps w) |}).

(** [[
    def compute_a_slow_result(x):
        import time
        time.sleep(0.1)
        return x*2
    ]] *)
Definition compute_a_slow_result (x : pyval) : M pyval :=
  fun w => let (_, w') := time_sleep w in (mul2 x, w').

Fixpoint find (k : key) (t : list (key * pyval)) : option (key * pyval) :=
  match t with
  | [] => None
  | (k', v) :: t' => if key_eq k' k then Some (k', v) else find k t'
  end.

Fixpoint remove (k : key) (t : list (key * pyval)) : list (key * pyval) :=
  match t with
  | [] => []
  | (k', v) :: t' => if key_eq k' k then t' else (k', v) :: remove k t'
  end.

(** [@lru_cache(maxsize)]: a hit returns the stored result and makes the
    entry the most recent one; a miss calls the function, stores its
    result in front and drops the least recently used entry when the
    table is full.  An exception of the function is not stored. *)
Definition lru_cache (maxsize : nat) (f : pyval -> M pyval) (x : pyval) : M pyval :=
  fun w =>
    let k := make_key x in
    match find k (table w) with
    | Some (k', v) =>
        (inr v, {| table := (k', v) :: remove k (table w); sleeps := sleeps w |})
    | None =>
        match f x w with
        | (inl e, w') => (inl e, w')
        | (inr v, w') =>
            (inr v, {| table := (k, v) :: firstn (maxsize - 1) (table w');
                       sleeps := sleeps w' |})
        end
    end.

(** [[
    @lru_cache(maxsize=4)
    def compute_a_slow_result_cache(x):
        import time
        time.sleep(0.1)
        return x*2
    ]] *)
Definition compute_a_slow_result_cache : pyval -> M pyval :=
  lru_cache 4 (fun x w => let (_, w') := time_sleep w in (mul2 x, w')).

(** Every stored result is the double of an argument that satisfies [P]
    and has the key it is stored under. *)
Definition table_sound (P : pyval -> Prop) (t : list (key * pyval)) : Prop :=
  forall k v, In (k, v) t -> exists y, P y /\ make_key y = k /\ mul2 y = inr v.

(** The world after the calls [compute_a_slow_result_cache(x)] for the
    [x] of [history], in order. *)
Fixpoint after (history : list pyval) (w : world) : world :=
  match history with
  | [] => w
  | x :: history' => after history' (snd (compute_a_slow_result_cache x w))
  end.

End Cache.

(** A polynomial stand-in for [exp], used only to run the definitions on
    concrete inputs. *)
Module Sample.
Open Scope float_scope.

Fixpoint horner (k : nat) (i : float) (x acc : float) : float :=
  match k with
  | O => acc
  | S k' => horner k' (i - 1) x (1 + x * acc / i)
  end.

Definition exp (x : float) : float := horner 24 24 x 1.

(** A stand-in for the memory behind a buffer: zeros. *)
Definition stray (i : nat) : float := 0.


Definition reciprocal_cell (len n : nat) (a b x0 x1 x : float) : float :=
  (exp (a * a) * (x1 - x) + b * (x - x0)) * (1 / (x1 - x0)).

Definition hoisted_cell (len n : nat) (a b x0 x1 x : float) : float :=
  exp (a * a) * ((x1 - x) * (1 / (x1 - x0)))
  + b * ((x - x0) * (1 / (x1 - x0))).

(** A stand-in for the scheduling of a pool: every task had started. *)
Definition all_started (k : nat) : bool := true.

(** A stand-in for [hypot]: the square root of the sum of the squares. *)
Definition hypot (x y : float) : float := PrimFloat.sqrt (x * x + y * y).

(** A stand-in for the key derivation: it checks the iteration count as
    the library does and returns an empty digest. *)
Definition pbkdf2_hmac (hash_name : string) (password salt : list Byte.byte)
    (iterations : Z) : result (list Byte.byte) :=
  if (iterations <? 1)%Z then raise ValueError
  else if (2147483647 <? iterations)%Z then raise OverflowError
  else ret [].

End Sample.

(** ** The interpolation loop without a compiler

    [linear_interpolate_bad] is the loop of the numba versions run by the
    interpreter: every index is checked, the scalars are numpy float64
    scalars. *)

Module PlainLoop.

Import Np.
Open Scope float_scope.

(** The only exception the loop can raise. *)
Inductive index_error : Type := IndexError.

(** [a[n]] for [n >= 0], with numpy's bounds check. *)
Definition checked_get (a : ndarray) (n : nat) : index_error + float :=
  match nth_error a n with
  | Some v => inr v
  | None => inl IndexError
  end.

Section WithLibm.

Variable exp : float -> float.

(** [pow] of the C library: a float64 scalar raised to the power [2] is
    [pow(a, 2.0)]. *)
Variable pow : float -> float -> float.

(** What one iteration stores in [out[n]]; the division of a float64
    scalar does not raise. *)
Definition bad_cell (x0 x1 x : float) (a b : float) : float :=
  (exp (pow a 2) * (x1 - x) + b * (x - x0)) / (x1 - x0).

Fixpoint bad_loop (ns : list nat) (y0 y1 : ndarray) (x0 x1 x : float)
    (out : ndarray) : index_error + ndarray :=
  match ns with
  | [] => inr out
  | n :: ns' =>
      match checked_get y0 n with
      | inl e => inl e
      | inr a =>
          match checked_get y1 n with
          | inl e => inl e
          | inr b => bad_loop ns' y0 y1 x0 x1 x (setitem out n (bad_cell x0 x1 x a b))
          end
      end
  end.

(** [[
    def linear_interpolate_bad(y0, y1, x0, x1, x):
        out = np.zeros(y0.shape)
        for n in numba.prange(y0.shape[0]):
            out[n] = (np.exp(y0[n]**2) * (x1 - x) + y1[n] * (x - x0))  / (x1 - x0)
        return out
    ]]
    Outside compiled code [numba.prange] is [range]; the module [numba]
    has to be imported when the function is called. *)
Definition linear_interpolate_bad (y0 y1 : ndarray) (x0 x1 x : float)
  : index_error + ndarray :=
  let out := zeros (List.length y0) in
  bad_loop (seq 0 (List.length y0)) y0 y1 x0 x1 x out.

End WithLibm.

(** A stand-in for [pow], right on the exponent 2 only, used to run the
    definitions on concrete inputs. *)
Definition square_pow (a b : float) : float := a * a.

End PlainLoop.

(** ** The Mandelbrot matrix, cell by cell *)

Module MandelbrotCells.

Import Mandelbrot.

Section WithLibm.

Variable hypot : float -> float -> float.

(** The last index of [ns] reached before the orbit of [c] leaves the disc
    of radius 10, [last] when none is reached. *)
Fixpoint escape_index (ns : list Z) (c : complex) (z : pynum) (last : Z) : Z :=
  match ns with
  | [] => last
  | n :: ns' =>
      if abs_le_10 hypot z then escape_index ns' c (square_plus z c) n
      else last
  end.

(** Whether the orbit stays in the disc for all of [ns]. *)
Fixpoint stays (ns : list Z) (c : complex) (z : pynum) : bool :=
  match ns with
  | [] => true
  | _ :: ns' => abs_le_10 hypot z && stays ns' c (square_plus z c)
  end.

Definition cell_index (size iterations i j : Z) : Z :=
  escape_index (range iterations) (point size i j) (PyInt 0) 0.



End WithLibm.

End MandelbrotCells.

(** ** The library calls a driver makes *)

Module HashingTrace.

Import Hashing.

Section WithHashlib.

Variable pbkdf2_hmac : string -> bytes -> bytes -> Z -> result bytes.

(** The calls of [its] that are made when they are tried in order and the
    first exception ends the run. *)
Fixpoint made (its : list Z) : list Z :=
  match its with
  | [] => []
  | it :: its' =>
      match pbkdf2_hmac "sha256" password salt it with
      | inl _ => [it]
      | inr _ => it :: made its'
      end
  end.

End WithHashlib.

(** The largest iteration count the binding of [hashlib] to OpenSSL
    accepts, [INT_MAX]. *)
Definition int_max : Z := 2147483647.

(** A stand-in for a library that refuses every iteration count from
    [limit] on, used to run the drivers into an exception. *)
Definition refuse_from (limit : Z) (hash_name : string) (password salt : bytes)
    (iterations : Z) : result bytes :=
  if (limit <=? iterations)%Z then raise (LibraryError 1) else ret [].

End HashingTrace.

(** ** The undecorated function, called repeatedly *)

Module CachePlain.

Import Cache.

(** The world after the calls [compute_a_slow_result(x)] for the [x] of
    [history], in order. *)
Fixpoint after_plain (history : list pyval) (w : world) : world :=
  match history with
  | [] => w
  | x :: history' => after_plain history' (snd (compute_a_slow_result x w))
  end.

(** [rounds] times the calls of [args], in order. *)
Fixpoint cycle (rounds : nat) (args : list pyval) : list pyval :=
  match rounds with
  | O => []
  | S r => args ++ cycle r args
  end.

End CachePlain.

(** * Properties *)

(** ** Float64 subtraction

    The compiled loops test their divisor [x1 - x0] against zero; the
    specification speaks of [x0] and [x1] being different.  The two meet in
    the lemma of this module. *)

Module FloatFacts.

Open Scope Z_scope.

Lemma digits2_pos_lower (m : positive) :
      2 ^ (Z.pos (digits2_pos m) - 1) <= Z.pos m.
    Proof.
      induction m as [m IH|m IH|]; cbn [digits2_pos].
      - rewrite Pos2Z.inj_succ. replace (Z.succ (Z.pos (digits2_pos m)) - 1)
          with (Z.succ (Z.pos (digits2_pos m) - 1)) by lia.
        rewrite Z.pow_succ_r by lia. lia.
      - rewrite Pos2Z.inj_succ. replace (Z.succ (Z.pos (digits2_pos m)) - 1)
          with (Z.succ (Z.pos (digits2_pos m) - 1)) by lia.
        rewrite Z.pow_succ_r by lia. lia.
      - simpl. lia.
    Qed.

Lemma shr_1_lower r k :
      0 <= k -> 2 ^ (k + 1) <= shr_m r -> 2 ^ k <= shr_m (shr_1 r).
    Proof.
      intros Hk. rewrite Z.pow_add_r, Z.pow_1_r by lia.
      assert (0 < 2 ^ k) by (apply Z.pow_pos_nonneg; lia).
      destruct r as [m r s]. destruct m as [|[p|p|]|p]; cbn [shr_1 shr_m]; lia.
    Qed.

Lemma iter_shr_1_lower : forall p r k,
      0 <= k -> 2 ^ (Z.pos p + k) <= shr_m r ->
      2 ^ k <= shr_m (iter_pos shr_1 p r).
    Proof.
      induction p as [p IH|p IH|]; intros r k Hk H; cbn [iter_pos].
      - apply IH; [assumption|]. apply IH; [lia|]. apply shr_1_lower; [lia|].
        replace (Z.pos p + (Z.pos p + k) + 1) with (Z.pos p~1 + k) by lia.
        assumption.
      - apply IH; [assumption|]. apply IH; [lia|].
        replace (Z.pos p + (Z.pos p + k)) with (Z.pos p~0 + k) by lia.
        assumption.
      - apply shr_1_lower; [assumption|].
        now replace (k + 1) with (1 + k) by lia.
    Qed.

Lemma shr_record_of_loc_m m l : shr_m (shr_record_of_loc m l) = m.
    Proof. destruct l as [|[]]; reflexivity. Qed.

Lemma round_nearest_even_pos m l : 0 < m -> 0 < round_nearest_even m l.
    Proof.
      intros Hm. destruct l as [|[]]; cbn [round_nearest_even]; try lia.
      destruct (Z.even m); lia.
    Qed.

Lemma digits2_pos_iter_xO m d :
      Z.pos (digits2_pos (Pos.iter xO m d)) = Z.pos (digits2_pos m) + Z.pos d.
    Proof.
      induction d as [|d IH] using Pos.peano_ind.
      - cbn [Pos.iter digits2_pos]. lia.
      - rewrite Pos.iter_succ. cbn [digits2_pos]. lia.
    Qed.

Lemma digits2_pos_shl_align m e e' :
      e' <= e ->
      Z.pos (digits2_pos (fst (shl_align m e e'))) = Z.pos (digits2_pos m) + (e - e').
    Proof.
      intros Hle. unfold shl_align. destruct (e' - e) as [|d|d] eqn:Hd;
        cbn [fst]; try lia.
      rewrite digits2_pos_iter_xO. lia.
    Qed.

Lemma shl_align_same m e : shl_align m e e = (m, e).
    Proof. unfold shl_align. now rewrite Z.sub_diag. Qed.

Lemma digits2_pos_upper (m : positive) :
  Z.pos m < 2 ^ Z.pos (digits2_pos m).
Proof.
  induction m as [m IH|m IH|]; cbn [digits2_pos];
    rewrite ?Pos2Z.inj_succ, ?Z.pow_succ_r by lia; lia.
Qed.

(** The mantissa of a power of two has one digit more than the exponent. *)
Lemma digits2_pos_pow2 (m : positive) k :
  0 <= k -> Z.pos m = 2 ^ k -> Z.pos (digits2_pos m) = k + 1.
Proof.
  intros Hk Hm.
  pose proof (digits2_pos_lower m) as Hlo.
  pose proof (digits2_pos_upper m) as Hhi.
  rewrite Hm in Hlo, Hhi.
  apply Z.pow_le_mono_r_iff in Hlo; [|lia|lia].
  apply Z.pow_lt_mono_r_iff in Hhi; [|lia|lia].
  lia.
Qed.

Lemma shr_1_nonneg r : 0 <= shr_m r -> 0 <= shr_m (shr_1 r).
Proof.
  destruct r as [m r s]. destruct m as [|[p|p|]|p]; cbn [shr_1 shr_m]; lia.
Qed.

Lemma iter_shr_1_nonneg : forall p r,
  0 <= shr_m r -> 0 <= shr_m (iter_pos shr_1 p r).
Proof.
  induction p as [p IH|p IH|]; intros r H; cbn [iter_pos].
  - apply IH, IH, shr_1_nonneg, H.
  - apply IH, IH, H.
  - apply shr_1_nonneg, H.
Qed.

Lemma round_nearest_even_nonneg m l : 0 <= m -> 0 <= round_nearest_even m l.
Proof.
  intros Hm. destruct l as [|[]]; cbn [round_nearest_even]; try lia.
  destruct (Z.even m); lia.
Qed.

Lemma SFeqb_refl x : x <> S754_nan -> SFeqb x x = true.
Proof.
  destruct x as [s|s| |s m e]; intros H; try congruence;
    unfold SFeqb, SFcompare; try (destruct s; reflexivity).
  rewrite Z.compare_refl.
  change (Pos.compare_cont Eq m m) with (Pos.compare m m).
  rewrite Pos.compare_refl. destruct s; reflexivity.
Qed.

Lemma SFeqb_true x y :
  SFeqb x y = true ->
  x = y \/ exists s s', x = S754_zero s /\ y = S754_zero s'.
Proof.
  destruct x as [s|s| |s m e], y as [s'|s'| |s' m' e'];
    unfold SFeqb, SFcompare; try discriminate;
    try (destruct s; discriminate); try (destruct s'; discriminate).
  - intros _. right. now exists s, s'.
  - destruct s, s'; try discriminate; now left.
  - destruct s, s'; try discriminate;
      destruct (Z.compare_spec e e') as [He|He|He]; try discriminate;
      change (Pos.compare_cont Eq m m') with (Pos.compare m m');
      destruct (Pos.compare_spec m m') as [Hm|Hm|Hm]; try discriminate;
      intros _; left; now subst.
Qed.

Section Format.

Variables prec emax : Z.
Hypothesis prec_pos : 0 < prec.

(** Shifting a positive mantissa to its canonical exponent leaves it
        positive when the exponent starts above the smallest one. *)
Lemma shr_fexp_pos (m : positive) e l :
  SpecFloat.emin prec emax <= e ->
  0 < shr_m (fst (shr_fexp prec emax (Z.pos m) e l))
  /\ SpecFloat.emin prec emax <= snd (shr_fexp prec emax (Z.pos m) e l).
Proof.
  intros He. unfold shr_fexp, shr. cbn [Zdigits2].
  destruct (SpecFloat.fexp prec emax (Z.pos (digits2_pos m) + e) - e)
    as [|q|q] eqn:Hn; cbn [fst snd];
    rewrite ?shr_record_of_loc_m; try (split; lia).
  unfold SpecFloat.fexp in Hn. 
  assert (Hq : Z.pos q = Z.pos (digits2_pos m) - prec) by lia.
  split; [|lia].
  assert (2 ^ (prec - 1) <= shr_m (iter_pos shr_1 q (shr_record_of_loc (Z.pos m) l))).
  { apply iter_shr_1_lower; [lia|]. rewrite shr_record_of_loc_m.
    replace (Z.pos q + (prec - 1)) with (Z.pos (digits2_pos m) - 1) by lia.
    apply digits2_pos_lower. }
  assert (0 < 2 ^ (prec - 1)) by (apply Z.pow_pos_nonneg; lia).
  lia.
Qed.

Lemma binary_round_aux_nonzero sx (m : positive) e l s :
      SpecFloat.emin prec emax <= e -> binary_round_aux prec emax sx (Z.pos m) e l <> S754_zero s.
    Proof.
      intros He. unfold binary_round_aux.
      destruct (shr_fexp_pos m e l He) as [Hm1 He1].
      destruct (shr_fexp prec emax (Z.pos m) e l) as [mrs' e'].
      cbn [fst snd] in Hm1, He1.
      pose proof (round_nearest_even_pos _ (loc_of_shr_record mrs') Hm1) as Hr.
      destruct (round_nearest_even (shr_m mrs') (loc_of_shr_record mrs'))
        as [|m2|m2]; try lia.
      destruct (shr_fexp_pos m2 e' loc_Exact He1) as [Hm2 _].
      destruct (shr_fexp prec emax (Z.pos m2) e' loc_Exact) as [mrs'' e''].
      cbn [fst] in Hm2.
      destruct (shr_m mrs'') as [|m3|m3]; try lia.
      destruct (e'' <=? emax - prec); discriminate.
    Qed.

Lemma binary_normalize_nonzero m e sz s :
      m <> 0 -> SpecFloat.emin prec emax <= e -> binary_normalize prec emax m e sz <> S754_zero s.
    Proof.
      intros Hm He.
      assert (Hround : forall sx p, binary_round prec emax sx p e <> S754_zero s).
      { intros sx p. unfold binary_round, shl_align.
        destruct (SpecFloat.fexp prec emax (Z.pos (digits2_pos p) + e) - e)
          as [|d|d] eqn:Hd; try (now apply binary_round_aux_nonzero).
        apply binary_round_aux_nonzero. unfold SpecFloat.fexp.
        lia. }
      destruct m as [|p|p]; [congruence| |]; apply Hround.
    Qed.

Lemma canonical_exponent m e :
      bounded prec emax m e = true ->
      SpecFloat.fexp prec emax (Z.pos (digits2_pos m) + e) = e.
    Proof.
      unfold bounded, canonical_mantissa. intros H.
      apply andb_prop in H. destruct H as [H _]. now apply Z.eqb_eq in H.
    Qed.

(** The difference of two valid floats is a zero only if they compare
        equal. *)
Lemma SFsub_zero_eqb x y s :
  SpecFloat.valid_binary prec emax x = true ->
  SpecFloat.valid_binary prec emax y = true ->
  SFsub prec emax x y = S754_zero s -> SFeqb x y = true.
Proof.
  intros Vx Vy.
  destruct x as [sx|sx| |sx mx ex], y as [sy|sy| |sy my ey];
    cbn [SFsub]; try discriminate; try reflexivity;
    try (destruct sx, sy; discriminate).
  cbn [SpecFloat.valid_binary] in Vx, Vy.
  pose proof (canonical_exponent _ _ Vx) as Cx.
  pose proof (canonical_exponent _ _ Vy) as Cy.
  assert (Hex : SpecFloat.emin prec emax <= ex) by (rewrite <- Cx; unfold SpecFloat.fexp; lia).
  assert (Hey : SpecFloat.emin prec emax <= ey) by (rewrite <- Cy; unfold SpecFloat.fexp; lia).
  intros Hz.
  set (ez := Z.min ex ey) in *.
  set (a := fst (shl_align mx ex ez)) in *.
  set (b := fst (shl_align my ey ez)) in *.
  assert (Hdiff : cond_Zopp sx (Z.pos a) - cond_Zopp sy (Z.pos b) = 0).
  { destruct (Z.eq_dec (cond_Zopp sx (Z.pos a) - cond_Zopp sy (Z.pos b)) 0)
      as [E|E]; [exact E|].
    exfalso. revert Hz. apply binary_normalize_nonzero; [exact E|].
    unfold ez. lia. }
  assert (Hs : sx = sy /\ a = b).
  { destruct sx, sy; cbn [cond_Zopp] in Hdiff; split; try reflexivity;
      try lia. }
  destruct Hs as [-> Hab].
  assert (Hda : Z.pos (digits2_pos a) = Z.pos (digits2_pos mx) + (ex - ez))
    by (apply digits2_pos_shl_align; unfold ez; lia).
  assert (Hdb : Z.pos (digits2_pos b) = Z.pos (digits2_pos my) + (ey - ez))
    by (apply digits2_pos_shl_align; unfold ez; lia).
  rewrite Hab in Hda.
  assert (He : ex = ey).
  { rewrite <- Cx, <- Cy. f_equal. lia. }
  subst ey. unfold a, b, ez in Hab. rewrite Z.min_id, !shl_align_same in Hab.
  cbn [fst] in Hab. subst my.
  unfold SFeqb, SFcompare. rewrite Z.compare_refl.
  change (Pos.compare_cont Eq mx mx) with (Pos.compare mx mx).
  rewrite Pos.compare_refl. destruct sy; reflexivity.
Qed.

Lemma shr_fexp_nonneg m e l :
  0 <= m -> 0 <= shr_m (fst (shr_fexp prec emax m e l)).
Proof.
  intros Hm. unfold shr_fexp, shr.
  destruct (SpecFloat.fexp prec emax (Zdigits2 m + e) - e) as [|q|q];
    cbn [fst]; try (now rewrite shr_record_of_loc_m).
  apply iter_shr_1_nonneg. now rewrite shr_record_of_loc_m.
Qed.

Lemma binary_round_aux_not_nan sx m e l :
  0 <= m -> binary_round_aux prec emax sx m e l <> S754_nan.
Proof.
  intros Hm. unfold binary_round_aux.
  pose proof (shr_fexp_nonneg m e l Hm) as H1.
  destruct (shr_fexp prec emax m e l) as [mrs' e']. cbn [fst] in H1.
  pose proof (round_nearest_even_nonneg _ (loc_of_shr_record mrs') H1) as H2.
  pose proof (shr_fexp_nonneg _ e' loc_Exact H2) as H3.
  destruct (shr_fexp prec emax
              (round_nearest_even (shr_m mrs') (loc_of_shr_record mrs'))
              e' loc_Exact) as [mrs'' e''].
  cbn [fst] in H3.
  destruct (shr_m mrs'') as [|p|p]; try lia; try discriminate.
  destruct (e'' <=? emax - prec); discriminate.
Qed.

End Format.

Open Scope float_scope.

(** Subtraction of two float64 that do not compare equal is not a zero:
      with gradual underflow [x - y == 0] only if [x == y]. *)
Lemma sub_nonzero (x y : float) :
  PrimFloat.eqb x y = false -> PrimFloat.eqb (x - y) 0 = false.
Proof.
  rewrite !FloatAxioms.eqb_spec, sub_spec. intros Hne.
  destruct (SF64sub (Prim2SF x) (Prim2SF y)) as [s|s| |s m e] eqn:Hsub;
    [ | destruct s; reflexivity | reflexivity | destruct s; reflexivity ].
  rewrite (SFsub_zero_eqb prec emax) with (s := s) in Hne.
  - discriminate.
  - reflexivity.
  - apply Prim2SF_valid.
  - apply Prim2SF_valid.
  - exact Hsub.
Qed.

Lemma Prim2SF_two : Prim2SF 2 = S754_finite false 4503599627370496 (-51).
Proof. reflexivity. Qed.

(** Doubling respects the comparison of float64. *)
Lemma eqb_double (f g : float) :
  PrimFloat.eqb f g = true -> PrimFloat.eqb (f * 2) (g * 2) = true.
Proof.
  rewrite !FloatAxioms.eqb_spec, !mul_spec, Prim2SF_two. intros H.
  destruct (SFeqb_true _ _ H) as [E|[s [s' [Hf Hg]]]].
  - rewrite E in *. apply SFeqb_refl.
    destruct (Prim2SF g) as [s|s| |s m e]; try discriminate.
    cbn [SF64mul SFmul]. now apply binary_round_aux_not_nan.
  - rewrite Hf, Hg. reflexivity.
Qed.

(** A float64 equal to the integer 0 or 1 doubles to the float64 equal to
    the double of that integer. *)
Lemma Prim2SF_one_inv (f : float) m e :
  Prim2SF f = S754_finite false m e ->
  (if (0 <=? e)%Z then (1 =? Z.pos m * 2 ^ e)%Z
   else (1 * 2 ^ (- e) =? Z.pos m)%Z) = true ->
  Prim2SF f = S754_finite false 4503599627370496 (-52).
Proof.
  intros Hf Hv. pose proof (Prim2SF_valid f) as V. rewrite Hf in V.
  cbn [SpecFloat.valid_binary] in V.
  pose proof (canonical_exponent prec emax m e V) as C.
  rewrite Hf. destruct (Z.leb_spec 0 e) as [He|He].
  - apply Z.eqb_eq in Hv.
    assert (0 < 2 ^ e)%Z by (apply Z.pow_pos_nonneg; lia).
    assert (Hm : Z.pos m = 1%Z) by nia.
    assert (He0 : e = 0%Z).
    { destruct (Z.eq_dec e 0) as [|Hne]; [assumption|].
      assert (2 ^ 1 <= 2 ^ e)%Z by (apply Z.pow_le_mono_r; lia).
      rewrite Z.pow_1_r in *. nia. }
    subst e. injection Hm as ->. discriminate C.
  - apply Z.eqb_eq in Hv. rewrite Z.mul_1_l in Hv. symmetry in Hv.
    rewrite (digits2_pos_pow2 m (- e)) in C by (lia || assumption).
    unfold SpecFloat.fexp, SpecFloat.emin, prec, emax in C.
    assert (He52 : e = (-52)%Z) by lia. subst e.
    change (Z.pos m = Z.pos 4503599627370496) in Hv. now injection Hv as ->.
Qed.

End FloatFacts.

(** ** The interpolation kernel *)

Module InterpFacts.

Import Np Interp.
Open Scope float_scope.

Lemma zip_with_length op : forall a b,
  List.length a = List.length b -> List.length (zip_with op a b) = List.length a.
Proof.
  induction a as [|u a IH]; intros [|v b] H; simpl in *; try congruence.
  f_equal. apply IH. congruence.
Qed.

Lemma zip_with_nth op : forall a b i u v,
  nth_error a i = Some u -> nth_error b i = Some v ->
  nth_error (zip_with op a b) i = Some (op u v).
Proof.
  induction a as [|u0 a IH]; intros [|v0 b] [|i] u v Ha Hb; simpl in *;
    try discriminate.
  - congruence.
  - eauto.
Qed.

Lemma zip_with_map op f g : forall a b,
  zip_with op (map f a) (map g b) = zip_with (fun u v => op (f u) (g v)) a b.
Proof.
  induction a as [|u a IH]; intros [|v b]; simpl; try reflexivity.
  now rewrite IH.
Qed.

Lemma map_zip_with f op : forall a b,
  map f (zip_with op a b) = zip_with (fun u v => f (op u v)) a b.
Proof.
  induction a as [|u a IH]; intros [|v b]; simpl; try reflexivity.
  now rewrite IH.
Qed.


Lemma zip_with_seq op (d : float) : forall a b,
  List.length a = List.length b ->
  zip_with op a b
  = map (fun i => op (nth i a d) (nth i b d)) (seq 0 (List.length a)).
Proof.
  induction a as [|u a IH]; intros [|v b] H; simpl in *; try congruence.
  f_equal. rewrite <- seq_shift, map_map. apply IH. congruence.
Qed.

Lemma zip_with_seq_le op (d : float) : forall a b,
  (List.length a <= List.length b)%nat ->
  zip_with op a b
  = map (fun i => op (nth i a d) (nth i b d)) (seq 0 (List.length a)).
Proof.
  induction a as [|u a IH]; intros [|v b] H; cbn [zip_with List.length seq map];
    try reflexivity.
  - cbn in H. lia.
  - cbn [nth]. f_equal. rewrite <- seq_shift, map_map. apply IH.
    cbn in H. lia.
Qed.

Lemma zip_with_length_le op : forall a b,
  (List.length a <= List.length b)%nat ->
  List.length (zip_with op a b) = List.length a.
Proof.
  intros a b H. now rewrite (zip_with_seq_le op 0 a b H), length_map, length_seq.
Qed.


Lemma unchecked_get_nth stray (a : ndarray) i d :
  (i < List.length a)%nat -> unchecked_get stray a i = nth i a d.
Proof. intros Hi. unfold unchecked_get. now apply nth_indep. Qed.

Lemma setitem_app v : forall (pre : ndarray) u rest,
  setitem (pre ++ u :: rest) (List.length pre) v = pre ++ v :: rest.
Proof.
  induction pre as [|w pre IH]; intros u rest; simpl; [reflexivity|].
  now rewrite IH.
Qed.

(** A loop that writes [f i] at every index [i] of a zeroed segment, left
    to right, leaves [f] tabulated there. *)
Lemma fill_loop (body : nat -> ndarray -> result ndarray) (f : nat -> float) :
  forall m (pre : ndarray),
    (forall i out, (List.length pre <= i < List.length pre + m)%nat ->
                   body i out = inr (setitem out i (f i))) ->
    for_each (seq (List.length pre) m) body (pre ++ zeros m)
    = inr (pre ++ map f (seq (List.length pre) m)).
Proof.
  unfold zeros.
  induction m as [|m IH]; intros pre Hbody; cbn [seq for_each repeat map].
  - reflexivity.
  - rewrite Hbody by lia. cbn [bind]. rewrite setitem_app.
    specialize (IH (pre ++ [f (List.length pre)])).
    rewrite length_app in IH. cbn [List.length] in IH.
    rewrite Nat.add_1_r, <- !app_assoc in IH. cbn [app] in IH.
    apply IH. intros i out Hi. apply Hbody. lia.
Qed.

Lemma fill_loop_zeros body (f : nat -> float) n :
  (forall i out, (i < n)%nat -> body i out = inr (setitem out i (f i))) ->
  for_each (seq 0 n) body (zeros n) = inr (map f (seq 0 n)).
Proof.
  intros Hbody. apply (fill_loop body f n []).
  intros i out Hi. apply Hbody. simpl in Hi. lia.
Qed.


Section WithLibm.

Variable exp : float -> float.
Variable stray : nat -> float.

(** On arrays of one length the vectorised expression is the closed form
    zipped over the two inputs. *)
Lemma linear_interpolate_zip y0 y1 x0 x1 x :
  List.length y0 = List.length y1 ->
  linear_interpolate exp y0 y1 x0 x1 x
  = inr (zip_with (spec_formula exp x0 x1 x) y0 y1).
Proof.
  intros Hlen. unfold linear_interpolate, array_array, array_scalar, square,
    ufunc1.
  cbv zeta. rewrite !length_map, Hlen, Nat.eqb_refl. simpl. unfold ret. f_equal.
  rewrite !map_map, zip_with_map, map_zip_with. reflexivity.
Qed.

(** The Cython loop reads the cells of [y0] and those of [y1] below the
    length of [y0]: when [y1] has them all, nothing else is read. *)
Lemma linear_cython_zip y0 y1 x0 x1 x :
  (List.length y0 <= List.length y1)%nat ->
  linear_cython exp stray y0 y1 x0 x1 x
  = inr (zip_with (spec_formula exp x0 x1 x) y0 y1).
Proof.
  intros Hlen. unfold linear_cython. cbv zeta.
  rewrite (zip_with_seq_le _ 0 _ _ Hlen).
  apply fill_loop_zeros. intros i out Hi.
  rewrite (unchecked_get_nth stray y0 i 0 Hi).
  rewrite (unchecked_get_nth stray y1 i 0) by lia.
  reflexivity.
Qed.

(** The loop compiled by numba returns the closed form as soon as its
    division does not raise. *)
Lemma linear_interpolate_good_zip y0 y1 x0 x1 x :
  (List.length y0 <= List.length y1)%nat ->
  PrimFloat.eqb (x1 - x0) 0 = false ->
  linear_interpolate_good exp stray y0 y1 x0 x1 x
  = inr (zip_with (spec_formula exp x0 x1 x) y0 y1).
Proof.
  intros Hlen Hdiv. unfold linear_interpolate_good. cbv zeta.
  rewrite (zip_with_seq_le _ 0 _ _ Hlen).
  apply fill_loop_zeros. intros i out Hi.
  rewrite (unchecked_get_nth stray y0 i 0 Hi).
  rewrite (unchecked_get_nth stray y1 i 0) by lia.
  unfold numba_truediv. rewrite Hdiv. reflexivity.
Qed.

(** A zero divisor makes its first iteration raise. *)
Lemma linear_interpolate_good_raises u y0 y1 x0 x1 x :
  PrimFloat.eqb (x1 - x0) 0 = true ->
  linear_interpolate_good exp stray (u :: y0) y1 x0 x1 x
  = inl ZeroDivisionError.
Proof.
  intros Hz. unfold linear_interpolate_good. cbv zeta.
  cbn [List.length seq for_each]. unfold numba_truediv.
  rewrite Hz. reflexivity.
Qed.



End WithLibm.

(** The parallel loop tabulates its kernel over the indices of [y0]. *)
Lemma linear_interpolate_best_cells stray fast_cell y0 y1 x0 x1 x :
  linear_interpolate_best stray fast_cell y0 y1 x0 x1 x
  = inr (map (fun n => fast_cell (List.length y0) n
                         (unchecked_get stray y0 n) (unchecked_get stray y1 n)
                         x0 x1 x)
             (seq 0 (List.length y0))).
Proof.
  unfold linear_interpolate_best. cbv zeta.
  apply fill_loop_zeros. reflexivity.
Qed.

(** C1. For arrays [y0], [y1] of one length, [linear_interpolate] returns an
    array of that length whose i-th element is
    [(exp(y0[i]^2) * (x1 - x) + y1[i] * (x - x0)) / (x1 - x0)]. *)
Theorem linear_interpolate_elementwise
    (exp : float -> float) (y0 y1 : ndarray) (x0 x1 x : float) :
  List.length y0 = List.length y1 ->
  exists out,
    linear_interpolate exp y0 y1 x0 x1 x = inr out /\
    List.length out = List.length y0 /\
    forall i a b,
      nth_error y0 i = Some a -> nth_error y1 i = Some b ->
      nth_error out i
      = Some ((exp (a * a) * (x1 - x) + b * (x - x0)) / (x1 - x0)).
Proof.
  intros Hlen. eexists. split; [apply linear_interpolate_zip; assumption|].
  split.
  - now apply zip_with_length.
  - intros i a b Ha Hb.
    apply (zip_with_nth (spec_formula exp x0 x1 x) _ _ _ _ _ Ha Hb).
Qed.

Lemma linear_interpolate_elementwise_witness :
  exists out,
    linear_interpolate Sample.exp [0.5; 1; 2] [3; 4; 5] 2 3 2.5 = inr out /\
    List.length out = 3%nat /\
    forall i a b,
      nth_error [0.5; 1; 2] i = Some a -> nth_error [3; 4; 5] i = Some b ->
      nth_error out i
      = Some ((Sample.exp (a * a) * (3 - 2.5) + b * (2.5 - 2)) / (3 - 2)).
Proof.
  apply (linear_interpolate_elementwise Sample.exp [0.5; 1; 2] [3; 4; 5] 2 3 2.5).
  reflexivity.
Defined.




(** C3, as the code has it.  The claim is made for every input; arrays
    whose lengths differ (neither being 1) make the vectorised expression
    raise. *)
Lemma linear_interpolate_shape_mismatch :
  linear_interpolate Sample.exp [1; 2] [1; 2; 3] 2 3 2.5 = inl ValueError.
Proof. reflexivity. Qed.

(** C3, amended. For arrays of one length and all scalars, [x1 = x0]
    included, [linear_interpolate] and [linear_cython] return an array:
    the division is not a failure mode.  The only exception the
    vectorised expression raises is the [ValueError] of two lengths that
    do not broadcast. *)
Theorem linear_interpolate_division_total
    (exp : float -> float) (stray : nat -> float)
    (y0 y1 : ndarray) (x0 x1 x : float) :
  List.length y0 = List.length y1 ->
  (exists out, linear_interpolate exp y0 y1 x0 x1 x = inr out) /\
  (exists out, linear_cython exp stray y0 y1 x0 x1 x = inr out) /\
  (forall (z0 z1 : ndarray) e,
      linear_interpolate exp z0 z1 x0 x1 x = inl e ->
      e = ValueError /\ List.length z0 <> List.length z1 /\
      List.length z0 <> 1%nat /\ List.length z1 <> 1%nat).
Proof.
  intros Hlen. split; [|split].
  - eexists. now apply linear_interpolate_zip.
  - eexists. apply linear_cython_zip. lia.
  - intros z0 z1 e. unfold linear_interpolate, array_array, array_scalar,
      square, ufunc1. cbv zeta. rewrite !length_map.
    destruct (Nat.eqb_spec (List.length z0) (List.length z1)) as [E|E];
      [discriminate|].
    destruct z0 as [|u [|u' z0]], z1 as [|v [|v' z1]]; cbn;
      try discriminate; try (exfalso; apply E; reflexivity);
      intros H; inversion H; repeat split; cbn in *; congruence.
Qed.

Lemma linear_interpolate_division_total_witness :
  (exists out, linear_interpolate Sample.exp [0.5; 1] [3; 4] 2 2 2.5 = inr out) /\
  (exists out, linear_cython Sample.exp Sample.stray [0.5; 1] [3; 4] 2 2 2.5
               = inr out) /\
  (forall (z0 z1 : ndarray) e,
      linear_interpolate Sample.exp z0 z1 2 2 2.5 = inl e ->
      e = ValueError /\ List.length z0 <> List.length z1 /\
      List.length z0 <> 1%nat /\ List.length z1 <> 1%nat).
Proof.
  apply (linear_interpolate_division_total Sample.exp Sample.stray
           [0.5; 1] [3; 4] 2 2 2.5).
  reflexivity.
Defined.

(** C4, as the code has it.  With [x1 = x0] the loop compiled by numba
    raises at its first iteration and returns no array. *)
Lemma linear_interpolate_good_zero_divisor :
  linear_interpolate_good Sample.exp Sample.stray [1] [1] 2 2 2.5
  = inl ZeroDivisionError.
Proof. reflexivity. Qed.

(** C4, amended. For arrays of one length [n], [linear_interpolate],
    [linear_cython] and [linear_interpolate_best] return an array of
    length [n] for all scalars, [x1 = x0] included;
    [linear_interpolate_good] does so when [x1 != x0] or [n = 0], and
    raises [ZeroDivisionError] when [x1 - x0] is zero and [n >= 1]. *)
Theorem strategies_keep_shape
    (np_exp c_exp nb_exp : float -> float) (stray : nat -> float)
    (fast_cell : nat -> nat -> float -> float -> float -> float -> float -> float)
    (y0 y1 : ndarray) (x0 x1 x : float) :
  List.length y0 = List.length y1 ->
  (exists out, linear_interpolate np_exp y0 y1 x0 x1 x = inr out /\
               List.length out = List.length y0) /\
  (exists out, linear_cython c_exp stray y0 y1 x0 x1 x = inr out /\
               List.length out = List.length y0) /\
  (exists out, linear_interpolate_best stray fast_cell y0 y1 x0 x1 x = inr out /\
               List.length out = List.length y0) /\
  (PrimFloat.eqb x1 x0 = false \/ y0 = [] ->
   exists out, linear_interpolate_good nb_exp stray y0 y1 x0 x1 x = inr out /\
               List.length out = List.length y0) /\
  (PrimFloat.eqb (x1 - x0) 0 = true -> y0 <> [] ->
   linear_interpolate_good nb_exp stray y0 y1 x0 x1 x = inl ZeroDivisionError).
Proof.
  intros Hlen.
  assert (Hout : forall exp,
             List.length (zip_with (spec_formula exp x0 x1 x) y0 y1)
             = List.length y0)
    by (intros exp; now apply zip_with_length).
  split; [|split; [|split; [|split]]].
  - eexists. split; [now apply linear_interpolate_zip|apply Hout].
  - eexists. split; [apply linear_cython_zip; lia|apply Hout].
  - eexists. split; [apply linear_interpolate_best_cells|].
    now rewrite length_map, length_seq.
  - intros [Hne | ->].
    + eexists. split; [|apply Hout].
      apply linear_interpolate_good_zip; [lia|].
      now apply FloatFacts.sub_nonzero.
    + exists []. split; reflexivity.
  - intros Hz Hne. destruct y0 as [|u y0]; [congruence|].
    now apply linear_interpolate_good_raises.
Qed.

Lemma strategies_keep_shape_witness :
  (exists out, linear_interpolate_best Sample.stray Sample.hoisted_cell
                 [0.5; 1] [3; 4] 2 2 2.5 = inr out /\
               List.length out = 2%nat) /\
  (exists out, linear_interpolate_good Sample.exp Sample.stray
                 [0.5; 1] [3; 4] 2 3 2.5 = inr out /\
               List.length out = 2%nat) /\
  linear_interpolate_good Sample.exp Sample.stray [0.5; 1] [3; 4] 2 2 2.5
  = inl ZeroDivisionError.
Proof.
  destruct (strategies_keep_shape Sample.exp Sample.exp Sample.exp Sample.stray
              Sample.hoisted_cell [0.5; 1] [3; 4] 2 2 2.5 eq_refl)
    as [_ [_ [Hbest [_ Hzero]]]].
  destruct (strategies_keep_shape Sample.exp Sample.exp Sample.exp Sample.stray
              Sample.hoisted_cell [0.5; 1] [3; 4] 2 3 2.5 eq_refl)
    as [_ [_ [_ [Hgood _]]]].
  split; [exact Hbest|split].
  - apply Hgood. left. reflexivity.
  - apply Hzero; [reflexivity|discriminate].
Defined.

End InterpFacts.

(** ** The Mandelbrot loop *)

Module MandelbrotFacts.

Import Mandelbrot.








Section WithLibm.

Variable hypot : float -> float -> float.


End WithLibm.








End MandelbrotFacts.

(** ** The hashing drivers *)

Module HashingFacts.

Import Hashing.

Lemma get_chunks_concat {X} (size : nat) :
  (0 < size)%nat ->
  forall fuel (xs : list X),
    (List.length xs <= fuel)%nat ->
    List.concat (get_chunks fuel size xs) = xs.
Proof.
  intros Hsize. induction fuel as [|fuel IH]; intros xs Hlen.
  - destruct xs; [reflexivity|cbn in Hlen; lia].
  - destruct xs as [|x xs]; [reflexivity|].
    cbn [get_chunks List.concat]. rewrite IH.
    + apply firstn_skipn.
    + rewrite length_skipn. cbn [List.length] in *. lia.
Qed.

Lemma concat_singletons {X Y} (f : X -> Y) (xs : list X) :
  List.concat (map (fun x => [f x]) xs) = map f xs.
Proof.
  induction xs as [|x xs IH]; cbn; [reflexivity|]. now rewrite IH.
Qed.

Lemma concat_constant {X Y} (c : list Y) (xs : list X) :
  List.concat (map (fun _ => c) xs) = List.concat (repeat c (List.length xs)).
Proof.
  induction xs as [|x xs IH]; cbn; [reflexivity|]. now rewrite IH.
Qed.

Lemma concat_map_concat {X Y} (c : X -> list Y) (xss : list (list X)) :
  List.concat (map (fun xs => List.concat (map c xs)) xss)
  = List.concat (map c (List.concat xss)).
Proof.
  induction xss as [|xs xss IH]; cbn; [reflexivity|].
  now rewrite IH, map_app, concat_app.
Qed.

Lemma range_length lo hi : List.length (range lo hi) = Z.to_nat (hi - lo).
Proof. unfold range. now rewrite length_map, length_seq. Qed.

Lemma range_bounds lo hi i : In i (range lo hi) -> (lo <= i < hi)%Z.
Proof.
  unfold range. rewrite in_map_iff. intros [k [<- Hk]].
  apply in_seq in Hk. lia.
Qed.

Section WithHashlib.

Variable pbkdf2_hmac : string -> bytes -> bytes -> Z -> result bytes.

Lemma run_calls_app : forall its its' l,
  run_calls pbkdf2_hmac (its ++ its') l
  = match run_calls pbkdf2_hmac its l with
    | (Some e, l') => (Some e, l')
    | (None, l') => run_calls pbkdf2_hmac its' l'
    end.
Proof.
  induction its as [|it its IH]; intros its' l; cbn [app run_calls].
  - reflexivity.
  - destruct (pbkdf2_hmac "sha256"%string password salt it); [reflexivity|].
    apply IH.
Qed.

Lemma run_calls_first_error : forall its l,
  fst (run_calls pbkdf2_hmac its l) = first_error pbkdf2_hmac its.
Proof.
  induction its as [|it its IH]; intros l;
    cbn [run_calls first_error]; [reflexivity|].
  destruct (pbkdf2_hmac "sha256"%string password salt it); [reflexivity|].
  apply IH.
Qed.

Lemma run_calls_success : forall its l,
  (forall it, In it its ->
              exists d, pbkdf2_hmac "sha256"%string password salt it = inr d) ->
  run_calls pbkdf2_hmac its l = (None, l ++ its).
Proof.
  induction its as [|it its IH]; intros l Hok; cbn [run_calls].
  - now rewrite app_nil_r.
  - destruct (Hok it (or_introl eq_refl)) as [d ->].
    rewrite IH by (intros it' Hin; apply Hok; now right).
    now rewrite <- app_assoc.
Qed.

Lemma Replays_ret {A} (a : A) : Replays pbkdf2_hmac (mret a) [] a.
Proof. intros l. reflexivity. Qed.

Lemma Replays_call it :
  Replays pbkdf2_hmac
    (mbind (call_pbkdf2 pbkdf2_hmac it) (fun _ => mret tt)) [it] tt.
Proof.
  intros l. unfold mbind, call_pbkdf2, mret. cbn [run_calls].
  destruct (pbkdf2_hmac "sha256"%string password salt it); reflexivity.
Qed.

Lemma Replays_bind {A B} (m : M A) (k : A -> M B) its its' a b :
  Replays pbkdf2_hmac m its a -> Replays pbkdf2_hmac (k a) its' b ->
  Replays pbkdf2_hmac (mbind m k) (its ++ its') b.
Proof.
  intros Hm Hk l. unfold mbind. rewrite Hm, run_calls_app.
  destruct (run_calls pbkdf2_hmac its l) as [[e|] l']; [reflexivity|].
  apply Hk.
Qed.

(** A computation followed by one that makes no call. *)
Lemma Replays_then {A B} (m : M A) (k : A -> M B) its a b :
  Replays pbkdf2_hmac m its a -> Replays pbkdf2_hmac (k a) [] b ->
  Replays pbkdf2_hmac (mbind m k) its b.
Proof.
  intros Hm Hk. rewrite <- (app_nil_r its). now apply Replays_bind with a.
Qed.

Lemma Replays_mfor {X} (body : X -> M unit) (c : X -> list Z) :
  forall xs,
    (forall x, In x xs -> Replays pbkdf2_hmac (body x) (c x) tt) ->
    Replays pbkdf2_hmac (mfor xs body) (List.concat (map c xs)) tt.
Proof.
  induction xs as [|x xs IH]; intros Hbody; cbn [mfor map List.concat].
  - apply Replays_ret.
  - apply Replays_bind with (a := tt).
    + apply Hbody. now left.
    + apply IH. intros y Hy. apply Hbody. now right.
Qed.

Lemma Replays_mmap {X Y} (f : X -> M Y) (c : X -> list Z) (g : X -> Y) :
  (forall x, Replays pbkdf2_hmac (f x) (c x) (g x)) ->
  forall xs,
    Replays pbkdf2_hmac (mmap f xs) (List.concat (map c xs)) (map g xs).
Proof.
  intros Hf. induction xs as [|x xs IH]; cbn [mmap map List.concat].
  - apply Replays_ret.
  - apply Replays_bind with (a := g x); [apply Hf|].
    apply Replays_then with (a := map g xs); [exact IH|apply Replays_ret].
Qed.

Lemma Replays_pass {X} : forall xs : list X,
  Replays pbkdf2_hmac (mfor xs (fun _ => mret tt)) [] tt.
Proof.
  induction xs as [|x xs IH]; cbn [mfor]; [apply Replays_ret|].
  apply (Replays_bind (mret tt) (fun _ => mfor xs (fun _ => mret tt))
           [] [] tt tt); [apply Replays_ret|exact IH].
Qed.

(** The chunks of [Executor.map] computed one after the other, the first
    exception ending the run: the pool returns what this returns, and has
    made the same calls when no call fails. *)
Lemma chunks_in_order_replays {X Y} (f : X -> M Y) (c : X -> list Z)
    (g : X -> Y) (xs : list X) (size : nat) :
  (0 < size)%nat ->
  (forall x, Replays pbkdf2_hmac (f x) (c x) (g x)) ->
  Replays pbkdf2_hmac
    (mbind (mmap (mmap f) (get_chunks (List.length xs) size xs))
           (fun rs => mret (List.concat rs)))
    (List.concat (map c xs)) (map g xs).
Proof.
  intros Hsize Hf.
  pose proof (get_chunks_concat size Hsize (List.length xs) xs (le_n _))
    as Hchunks.
  set (chunks := get_chunks (List.length xs) size xs) in *.
  rewrite <- Hchunks at 1 2.
  rewrite <- concat_map_concat, concat_map.
  apply Replays_then with (a := map (map g) chunks); [|apply Replays_ret].
  apply Replays_mmap. intros chunk. now apply Replays_mmap.
Qed.

Lemma hash_one_replays n :
  Replays pbkdf2_hmac (hash_one pbkdf2_hmac n)
    (calls_of_hash_one n) "done"%string.
Proof.
  unfold hash_one, calls_of_hash_one. rewrite <- concat_singletons.
  apply Replays_then with (a := tt); [|apply Replays_ret].
  apply Replays_mfor. intros i _. apply Replays_call.
Qed.

Lemma hash_all_replays n :
  Replays pbkdf2_hmac (hash_all pbkdf2_hmac n)
    (List.concat (repeat (calls_of_hash_one n) (Z.to_nat n)))
    "done"%string.
Proof.
  unfold hash_all.
  replace (Z.to_nat n) with (List.length (range 0 n))
    by (rewrite range_length; f_equal; lia).
  rewrite <- concat_constant.
  apply Replays_then with (a := tt); [|apply Replays_ret].
  apply Replays_mfor. intros i _.
  apply Replays_then with (a := "done"%string);
    [apply hash_one_replays|apply Replays_ret].
Qed.

Lemma hash_all_process_in_order_replays n :
  Replays pbkdf2_hmac
    (mbind (mbind (mmap (mmap (hash_one pbkdf2_hmac))
                     (get_chunks (List.length (range 0 n)) 2 (range 0 n)))
                  (fun rs => mret (List.concat rs)))
           (fun results =>
              mbind (mfor (combine (range 0 n) results) (fun _ => mret tt))
                    (fun _ => mret "done"%string)))
    (List.concat (map calls_of_hash_one (range 0 n))) "done"%string.
Proof.
  apply Replays_then
    with (a := map (fun _ : Z => "done"%string) (range 0 n)).
  - apply chunks_in_order_replays; [lia|]. apply hash_one_replays.
  - apply Replays_then with (a := tt); [apply Replays_pass|apply Replays_ret].
Qed.

End WithHashlib.

(** The pool hands out what the chunks computed in order would: the same
    exception, the first one in the order of submission, or the same
    results; in the second case no task was cancelled and the calls are
    the same. *)
Lemma pool_map_in_order {X Y} (started : nat -> bool) (fn : X -> M Y) :
  forall chunks k l,
    fst (pool_map started fn k chunks l) = fst (mmap (mmap fn) chunks l) /\
    (forall rs, fst (mmap (mmap fn) chunks l) = inr rs ->
                pool_map started fn k chunks l = mmap (mmap fn) chunks l).
Proof.
  induction chunks as [|chunk chunks IH]; intros k l;
    cbn [pool_map mmap]; unfold mbind.
  - split; reflexivity.
  - destruct (mmap fn chunk l) as [[e|ys] l'].
    + split; [reflexivity|discriminate].
    + destruct (IH (S k) l') as [IH1 IH2].
      destruct (mmap (mmap fn) chunks l') as [[e|yss] l''].
      * destruct (pool_map started fn (S k) chunks l') as [[e'|yss'] l3];
          cbn [fst] in IH1; [|discriminate IH1].
        injection IH1 as ->. split; [reflexivity|discriminate].
      * rewrite (IH2 yss eq_refl). split; reflexivity.
Qed.

Lemma executor_map_in_order {X Y} (started : nat -> bool) (fn : X -> M Y)
    (xs : list X) (size : nat) (l : log) :
  fst (executor_map started fn xs size l)
  = fst (mbind (mmap (mmap fn) (get_chunks (List.length xs) size xs))
               (fun rs => mret (List.concat rs)) l) /\
  (forall ys,
      fst (mbind (mmap (mmap fn) (get_chunks (List.length xs) size xs))
                 (fun rs => mret (List.concat rs)) l) = inr ys ->
      executor_map started fn xs size l
      = mbind (mmap (mmap fn) (get_chunks (List.length xs) size xs))
              (fun rs => mret (List.concat rs)) l).
Proof.
  unfold executor_map, mbind.
  destruct (pool_map_in_order started fn
              (get_chunks (List.length xs) size xs) 0 l) as [H1 H2].
  destruct (mmap (mmap fn) (get_chunks (List.length xs) size xs) l)
    as [[e|rs] l'].
  - destruct (pool_map started fn 0 _ l) as [[e'|rs'] l3];
      cbn [fst] in H1; [|discriminate H1].
    injection H1 as ->. split; [reflexivity|discriminate].
  - rewrite (H2 rs eq_refl). split; reflexivity.
Qed.

Section WithPool.

Variable pbkdf2_hmac : string -> bytes -> bytes -> Z -> result bytes.
Variable started : nat -> bool.

(** [hash_all_process(n)] returns what the calls of [hash_one(0)], ...,
    [hash_one(n - 1)] made in this order lead to. *)
Lemma hash_all_process_outcome n l :
  fst (hash_all_process pbkdf2_hmac started n l)
  = outcome pbkdf2_hmac (List.concat (map calls_of_hash_one (range 0 n))).
Proof.
  pose proof (hash_all_process_in_order_replays pbkdf2_hmac n l) as Hseq.
  unfold outcome.
  rewrite <- (run_calls_first_error pbkdf2_hmac _ l).
  unfold hash_all_process.
  destruct (executor_map_in_order started (hash_one pbkdf2_hmac)
              (range 0 n) 2 l) as [H1 H2].
  unfold mbind at 1. unfold mbind at 1 in Hseq.
  destruct (mbind (mmap (mmap (hash_one pbkdf2_hmac))
                     (get_chunks (List.length (range 0 n)) 2 (range 0 n)))
                  (fun rs => mret (List.concat rs)) l)
    as [[e|ys] l'] eqn:E.
  - destruct (executor_map started (hash_one pbkdf2_hmac) (range 0 n) 2 l)
      as [[e'|ys'] l3]; cbn [fst] in H1; [|discriminate H1].
    injection H1 as ->.
    destruct (run_calls pbkdf2_hmac _ l) as [[e''|] l4];
      [|discriminate Hseq].
    now injection Hseq as -> _.
  - rewrite (H2 ys eq_refl). rewrite Hseq.
    destruct (run_calls pbkdf2_hmac _ l) as [[e''|] l4]; reflexivity.
Qed.

(** When none of these calls fails, they are the calls the pool has
    made. *)
Lemma hash_all_process_success n l :
  (forall it, In it (List.concat (map calls_of_hash_one (range 0 n))) ->
              exists d, pbkdf2_hmac "sha256"%string password salt it = inr d) ->
  hash_all_process pbkdf2_hmac started n l
  = (inr "done"%string,
     l ++ List.concat (map calls_of_hash_one (range 0 n))).
Proof.
  intros Hok.
  pose proof (hash_all_process_in_order_replays pbkdf2_hmac n l) as Hseq.
  rewrite run_calls_success in Hseq by assumption.
  unfold hash_all_process.
  destruct (executor_map_in_order started (hash_one pbkdf2_hmac)
              (range 0 n) 2 l) as [_ H2].
  unfold mbind at 1. unfold mbind at 1 in Hseq.
  destruct (mbind (mmap (mmap (hash_one pbkdf2_hmac))
                     (get_chunks (List.length (range 0 n)) 2 (range 0 n)))
                  (fun rs => mret (List.concat rs)) l)
    as [[e|ys] l'] eqn:E; [discriminate Hseq|].
  rewrite (H2 ys eq_refl). exact Hseq.
Qed.

End WithPool.

Lemma first_error_origin
    (pbkdf2_hmac : string -> bytes -> bytes -> Z -> result bytes) e :
  forall its,
    first_error pbkdf2_hmac its = Some e ->
    exists it, In it its /\ pbkdf2_hmac "sha256"%string password salt it = inl e.
Proof.
  induction its as [|it its IH]; cbn [first_error]; [discriminate|].
  destruct (pbkdf2_hmac "sha256"%string password salt it) as [e'|d] eqn:E.
  - intros H. injection H as <-. exists it. split; [now left|exact E].
  - intros H. destruct (IH H) as [it' [Hin Hit]].
    exists it'. split; [now right|exact Hit].
Qed.

(** C7. No function handles an exception.  Each hashing driver returns what
    the first failing library call raised, and ["done"] when none fails; an
    exception it returns was raised by one of its library calls.
    [linear_interpolate_numexpr] returns whatever [ne.evaluate] returns, and
    [linear_interpolate] raises what the addition of the two arrays
    raises. *)
Theorem errors_propagate
    (pbkdf2_hmac : string -> bytes -> bytes -> Z -> result bytes)
    (started : nat -> bool) (exp : float -> float) :
  (forall n l,
      fst (hash_one pbkdf2_hmac n l)
      = outcome pbkdf2_hmac (calls_of_hash_one n)) /\
  (forall n l,
      fst (hash_all pbkdf2_hmac n l)
      = outcome pbkdf2_hmac
          (List.concat (repeat (calls_of_hash_one n) (Z.to_nat n)))) /\
  (forall n l,
      fst (hash_all_process pbkdf2_hmac started n l)
      = outcome pbkdf2_hmac
          (List.concat (map calls_of_hash_one (range 0 n)))) /\
  (forall its e,
      outcome pbkdf2_hmac its = inl e ->
      exists it,
        In it its /\ pbkdf2_hmac "sha256"%string password salt it = inl e) /\
  (forall y0 y1 x0 x1 x,
      Numexpr.linear_interpolate_numexpr exp y0 y1 x0 x1 x
      = Numexpr.evaluate exp
          "(exp(y0**2) * (x1 - x) + y1 * (x - x0))  / (x1 - x0)"
          [("y0", Numexpr.Array y0); ("y1", Numexpr.Array y1);
           ("x0", Numexpr.Scalar x0); ("x1", Numexpr.Scalar x1);
           ("x", Numexpr.Scalar x)]%string) /\
  (forall y0 y1 x0 x1 x e,
      Np.array_array PrimFloat.add
        (Np.array_scalar PrimFloat.mul (Np.ufunc1 exp (Np.square y0))
           (PrimFloat.sub x1 x))
        (Np.array_scalar PrimFloat.mul y1 (PrimFloat.sub x x0)) = inl e ->
      Interp.linear_interpolate exp y0 y1 x0 x1 x = inl e).
Proof.
  assert (H : forall (m : M string) its,
             Replays pbkdf2_hmac m its "done"%string ->
             forall l, fst (m l) = outcome pbkdf2_hmac its).
  { intros m its Hm l. rewrite Hm. unfold outcome.
    rewrite <- (run_calls_first_error pbkdf2_hmac its l).
    destruct (run_calls pbkdf2_hmac its l) as [[e|] l']; reflexivity. }
  repeat split.
  - intros n. apply H, hash_one_replays.
  - intros n. apply H, hash_all_replays.
  - intros n l. apply hash_all_process_outcome.
  - intros its e. unfold outcome.
    destruct (first_error pbkdf2_hmac its) as [e'|] eqn:E; [|discriminate].
    intros Heq. injection Heq as <-. now apply first_error_origin.
  - intros y0 y1 x0 x1 x e Hadd. unfold Interp.linear_interpolate.
    cbv zeta. now rewrite Hadd.
Qed.

(** C10, amended. For [n >= 0], when the library accepts the iteration
    counts [i * 10000] for [1 <= i < n], [hash_all(n)] and
    [hash_all_process(n)] both return ["done"]; [hash_all] has made the
    calls of [hash_one(n)] [n] times over, [hash_all_process] those of
    [hash_one(0)], ..., [hash_one(n - 1)]. *)
Theorem hash_all_done
    (pbkdf2_hmac : string -> bytes -> bytes -> Z -> result bytes)
    (started : nat -> bool) (n : Z) :
  (0 <= n)%Z ->
  (forall i, (1 <= i < n)%Z ->
             exists d, pbkdf2_hmac "sha256"%string password salt (i * 10000)%Z = inr d) ->
  forall l,
    hash_all pbkdf2_hmac n l
    = (inr "done"%string,
       l ++ List.concat (repeat (calls_of_hash_one n) (Z.to_nat n))) /\
    hash_all_process pbkdf2_hmac started n l
    = (inr "done"%string,
       l ++ List.concat (map calls_of_hash_one (range 0 n))).
Proof.
  intros Hn Hok l.
  assert (Hcalls : forall k it, (k <= n)%Z -> In it (calls_of_hash_one k) ->
            exists d, pbkdf2_hmac "sha256"%string password salt it = inr d).
  { intros k it Hk Hin. unfold calls_of_hash_one in Hin.
    apply in_map_iff in Hin. destruct Hin as [i [<- Hi]].
    apply range_bounds in Hi. apply Hok. lia. }
  split.
  - rewrite (hash_all_replays pbkdf2_hmac n l), run_calls_success;
      [reflexivity|].
    intros it Hin. apply in_concat in Hin. destruct Hin as [c [Hc Hin]].
    apply repeat_spec in Hc. subst c. apply (Hcalls n); [lia|exact Hin].
  - apply hash_all_process_success.
    intros it Hin. apply in_concat in Hin. destruct Hin as [c [Hc Hin]].
    apply in_map_iff in Hc. destruct Hc as [k [<- Hk]].
    apply range_bounds in Hk. apply (Hcalls k); [lia|exact Hin].
Qed.

Lemma hash_all_done_witness :
  hash_all Sample.pbkdf2_hmac 3 []
  = (inr "done"%string,
     [] ++ List.concat (repeat (calls_of_hash_one 3) (Z.to_nat 3))) /\
  hash_all_process Sample.pbkdf2_hmac Sample.all_started 3 []
  = (inr "done"%string,
     [] ++ List.concat (map calls_of_hash_one (range 0 3))).
Proof.
  apply (hash_all_done Sample.pbkdf2_hmac Sample.all_started 3).
  - lia.
  - intros i Hi. exists [].
    assert (E : i = 1%Z \/ i = 2%Z) by lia.
    destruct E as [-> | ->]; reflexivity.
Defined.

End HashingFacts.

(** ** The memoised function *)

Module CacheFacts.

Import Cache.

Lemma find_some k : forall t k' v,
  find k t = Some (k', v) -> In (k', v) t /\ key_eq k' k = true.
Proof.
  induction t as [|[k0 v0] t IH]; intros k' v; cbn [find]; [discriminate|].
  destruct (key_eq k0 k) eqn:E.
  - intros H. inversion H; subst. split; [now left|exact E].
  - intros H. destruct (IH _ _ H) as [Hin Hk]. split; [now right|exact Hk].
Qed.

Lemma remove_incl k : forall t e, In e (remove k t) -> In e t.
Proof.
  induction t as [|[k0 v0] t IH]; intros e; cbn [remove]; [trivial|].
  destruct (key_eq k0 k).
  - intros H. now right.
  - intros [H|H]; [now left|right; now apply IH].
Qed.

Lemma firstn_incl {A} n : forall (l : list A) e, In e (firstn n l) -> In e l.
Proof.
  induction n as [|n IH]; intros [|a l] e; cbn [firstn]; try contradiction.
  intros [H|H]; [now left|right; now apply IH].
Qed.

Lemma table_sound_weaken (P Q : pyval -> Prop) t :
  (forall y, P y -> Q y) -> table_sound P t -> table_sound Q t.
Proof.
  intros HPQ Ht k v Hin. destruct (Ht k v Hin) as [y [Hy H]].
  exists y. split; [now apply HPQ|exact H].
Qed.

(** One call keeps the table sound, for the arguments seen so far and the
    new one. *)
Lemma call_sound (P : pyval -> Prop) x w :
  table_sound P (table w) ->
  table_sound (fun y => P y \/ y = x)
    (table (snd (compute_a_slow_result_cache x w))).
Proof.
  intros Ht. unfold compute_a_slow_result_cache, lru_cache.
  destruct (find (make_key x) (table w)) as [[k' v]|] eqn:Hfind.
  - cbn [snd table]. intros k v0 [H|H].
    + inversion H; subst. apply find_some in Hfind.
      destruct (Ht k v0 (proj1 Hfind)) as [y [Hy Hk]].
      exists y. split; [now left|exact Hk].
    + apply remove_incl in H. destruct (Ht k v0 H) as [y [Hy Hk]].
      exists y. split; [now left|exact Hk].
  - cbn [time_sleep]. destruct (mul2 x) as [e|v] eqn:Hmul; cbn [snd table].
    + apply table_sound_weaken with P; [now left|exact Ht].
    + intros k v0 [H|H].
      * inversion H; subst. exists x. repeat split; [now right|exact Hmul].
      * apply firstn_incl in H. destruct (Ht k v0 H) as [y [Hy Hk]].
        exists y. split; [now left|exact Hk].
Qed.

Lemma after_sound : forall history (P : pyval -> Prop) w,
  table_sound P (table w) ->
  table_sound (fun y => P y \/ In y history) (table (after history w)).
Proof.
  induction history as [|x history IH]; intros P w Ht; cbn [after].
  - apply table_sound_weaken with P; [now left|exact Ht].
  - apply table_sound_weaken with (fun y => (P y \/ y = x) \/ In y history).
    + intros y [[H|H]|H]; [now left|right; now left; symmetry|right; now right].
    + apply IH. now apply call_sound.
Qed.

Lemma initial_sound : table_sound (fun _ => False) (table initial).
Proof. intros k v []. Qed.

(** A bare key belongs to one argument only. *)
Lemma bare_key_eq x y :
  (exists n, x = PInt n) \/ (exists s, x = PStr s) ->
  key_eq (make_key y) (make_key x) = true -> y = x.
Proof.
  intros [[n ->]|[s ->]]; destruct y; cbn; try discriminate.
  - intros H. apply Z.eqb_eq in H. now subst.
  - intros H. apply String.eqb_eq in H. now subst.
Qed.

(** A float64 equal to the integer of a [bool] doubles to a float64
    equal to the double of that integer. *)
Lemma float_eq_int_double f b :
  float_eq_int f (int_of_bool b) = true ->
  float_eq_int (f * 2) (int_of_bool b * 2) = true.
Proof.
  unfold float_eq_int at 1. destruct (Prim2SF f) as [s|s| |sg m e] eqn:Hf;
    try discriminate.
  - destruct b; [discriminate|]. intros _.
    unfold float_eq_int. rewrite mul_spec, Hf, FloatFacts.Prim2SF_two.
    reflexivity.
  - intros H.
    assert (Hone : b = true /\ sg = false).
    { destruct b, sg; cbn [int_of_bool] in H; try (split; reflexivity);
        exfalso; destruct (Z.leb_spec 0 e) as [He|He];
        apply Z.eqb_eq in H;
        assert (0 < 2 ^ e \/ 0 < 2 ^ (- e))%Z
          by (destruct (Z.leb_spec 0 e); [left|right];
              apply Z.pow_pos_nonneg; lia);
        assert (0 < 2 ^ (- e) \/ e >= 0)%Z
          by (destruct (Z.leb_spec 0 e); [right; lia|left];
              apply Z.pow_pos_nonneg; lia);
        nia. }
    destruct Hone as [-> ->]. cbn [int_of_bool] in H.
    pose proof (FloatFacts.Prim2SF_one_inv f m e Hf H) as Hf1.
    unfold float_eq_int. rewrite mul_spec, Hf1, FloatFacts.Prim2SF_two.
    reflexivity.
Qed.

(** Arguments with equal keys have doubles that are identical or compare
    equal. *)
Lemma key_eq_double y x a :
  key_eq (make_key y) (make_key x) = true ->
  mul2 y = inr a ->
  mul2 x = inr a \/ exists b, mul2 x = inr b /\ py_eq a b = true.
Proof.
  destruct y as [|by_|ny|fy|sy], x as [|bx|nx|fx|sx];
    cbn [make_key key_eq py_eq mul2 raise ret]; try discriminate.
  - intros H E. apply Bool.eqb_prop in H. subst. now left.
  - intros H E. injection E as <-. right. eexists. split; [reflexivity|].
    cbn [py_eq]. now apply float_eq_int_double.
  - intros H E. apply Z.eqb_eq in H. subst. now left.
  - intros H E. injection E as <-. right. eexists. split; [reflexivity|].
    cbn [py_eq]. now apply float_eq_int_double.
  - intros H E. injection E as <-. right. eexists. split; [reflexivity|].
    cbn [py_eq]. now apply FloatFacts.eqb_double.
  - intros H E. apply String.eqb_eq in H. subst. now left.
Qed.

(** The value a call returns is the double of its argument or of an
    earlier argument with an equal key. *)
Lemma cached_call_value history x :
  let r := fst (compute_a_slow_result_cache x (after history initial)) in
  r = mul2 x \/
  exists y, In y history /\ key_eq (make_key y) (make_key x) = true /\
            r = mul2 y.
Proof.
  cbv zeta.
  pose proof (after_sound history (fun _ => False) initial initial_sound) as Ht.
  unfold compute_a_slow_result_cache, lru_cache.
  destruct (find (make_key x) (table (after history initial)))
    as [[k' v]|] eqn:Hfind.
  - right. apply find_some in Hfind. destruct Hfind as [Hin Hk].
    destruct (Ht k' v Hin) as [y [[[]|Hy] [Hkey Hmul]]].
    exists y. subst k'. cbn [fst]. now rewrite Hmul.
  - left. cbn [time_sleep]. destruct (mul2 x); reflexivity.
Qed.

(** On a hit the value handed out was stored by an earlier call. *)
Lemma cached_call_value_stored history x :
  let r := fst (compute_a_slow_result_cache x (after history initial)) in
  r = mul2 x \/
  exists y a, In y history /\ key_eq (make_key y) (make_key x) = true /\
              mul2 y = inr a /\ r = inr a.
Proof.
  cbv zeta.
  pose proof (after_sound history (fun _ => False) initial initial_sound) as Ht.
  unfold compute_a_slow_result_cache, lru_cache.
  destruct (find (make_key x) (table (after history initial)))
    as [[k' v]|] eqn:Hfind.
  - right. apply find_some in Hfind. destruct Hfind as [Hin Hk].
    destruct (Ht k' v Hin) as [y [[[]|Hy] [Hkey Hmul]]].
    exists y, v. subst k'. now cbn [fst].
  - left. cbn [time_sleep]. destruct (mul2 x); reflexivity.
Qed.

(** C8, as the code has it.  After the call with [True], the call with
    [1.0] finds the key [(True,)], equal to [(1.0,)], and returns the
    integer [2] stored there; the undecorated function returns the float
    [2.0]. *)
Lemma cache_returns_other_type :
  fst (compute_a_slow_result_cache (PFloat 1) (after [PBool true] initial))
  <> fst (compute_a_slow_result (PFloat 1) initial).
Proof. vm_compute. discriminate. Qed.

(** C8, amended. Whatever calls came before, [compute_a_slow_result_cache(x)]
    returns [y * 2] for [y] either [x] or an earlier argument whose key
    equals the key of [x]; that value is [x * 2] itself or compares equal
    to it; when [x] is an [int] or a [str], it is [x * 2], the value of the
    undecorated function. *)
Theorem cache_transparent_up_to_key (history : list pyval) (x : pyval) :
  (fst (compute_a_slow_result_cache x (after history initial)) = mul2 x \/
   exists y, In y history /\ key_eq (make_key y) (make_key x) = true /\
             fst (compute_a_slow_result_cache x (after history initial))
             = mul2 y) /\
  (fst (compute_a_slow_result_cache x (after history initial)) = mul2 x \/
   exists a b,
     fst (compute_a_slow_result_cache x (after history initial)) = inr a /\
     mul2 x = inr b /\ py_eq a b = true) /\
  ((exists n, x = PInt n) \/ (exists s, x = PStr s) ->
   forall w,
     fst (compute_a_slow_result_cache x (after history initial))
     = fst (compute_a_slow_result x w) /\
     fst (compute_a_slow_result x w) = mul2 x).
Proof.
  split; [apply cached_call_value|]. split.
  - destruct (cached_call_value_stored history x) as [H|[y [a [_ [Hk [Hy H]]]]]];
      [now left|].
    destruct (key_eq_double y x a Hk Hy) as [E|[b [E Hab]]].
    + left. now rewrite H, E.
    + right. now exists a, b.
  - intros Hx w. split; [|reflexivity].
    change (fst (compute_a_slow_result x w)) with (mul2 x).
    destruct (cached_call_value history x) as [H|[y [_ [Hk H]]]]; [exact H|].
    cbv zeta in H. rewrite H. f_equal. now apply bare_key_eq.
Qed.

End CacheFacts.

(** ** More on the interpolation kernel *)

Module InterpExtra.

Import Np Interp.
Open Scope float_scope.

Section WithLibm.

Variable exp : float -> float.

(** The vectorised expression, with the broadcast of its one addition left
    to [array_array]. *)
Lemma linear_interpolate_unfold y0 y1 x0 x1 x :
  linear_interpolate exp y0 y1 x0 x1 x
  = match array_array PrimFloat.add
            (map (fun a => exp (a * a) * (x1 - x)) y0)
            (map (fun b => b * (x - x0)) y1) with
    | inl e => inl e
    | inr num => inr (map (fun s => s / (x1 - x0)) num)
    end.
Proof.
  unfold linear_interpolate, array_scalar, square, ufunc1. cbv zeta.
  rewrite !map_map. reflexivity.
Qed.

(** X2. An array of one element is stretched over the other one, whatever
    its length. *)
Theorem linear_interpolate_stretches y0 y1 x0 x1 x (a b : float) :
  linear_interpolate exp y0 [b] x0 x1 x
  = inr (map (fun a' => spec_formula exp x0 x1 x a' b) y0) /\
  linear_interpolate exp [a] y1 x0 x1 x
  = inr (map (fun b' => spec_formula exp x0 x1 x a b') y1).
Proof.
  rewrite !linear_interpolate_unfold. unfold array_array, ret.
  rewrite !length_map. cbn [map List.length]. split.
  - destruct y0 as [|u [|u' y0]]; cbn [Nat.eqb List.length map zip_with];
      try reflexivity.
    now rewrite !map_map.
  - destruct y1 as [|v [|v' y1]]; cbn [Nat.eqb List.length map zip_with];
      try reflexivity.
    now rewrite !map_map.
Qed.

(** X3. [linear_interpolate] raises exactly when the two lengths differ
    and neither is 1, and what it raises then is [ValueError]. *)
Theorem linear_interpolate_raises_iff y0 y1 x0 x1 x :
  (List.length y0 <> List.length y1 /\
   List.length y0 <> 1%nat /\ List.length y1 <> 1%nat
   <-> linear_interpolate exp y0 y1 x0 x1 x = inl ValueError) /\
  (forall e, linear_interpolate exp y0 y1 x0 x1 x = inl e -> e = ValueError).
Proof.
  rewrite linear_interpolate_unfold. unfold array_array, ret, raise.
  rewrite !length_map.
  destruct (Nat.eqb_spec (List.length y0) (List.length y1)) as [E|E].
  - split; [split|]; [intros [H _]; contradiction|discriminate|discriminate].
  - destruct y0 as [|u [|u' y0]], y1 as [|v [|v' y1]]; cbn in *;
      (split; [split|]);
      try discriminate; try congruence;
      try (intros [_ [H1 H2]]; congruence);
      try (intros _; repeat split; congruence);
      try (intros e H; congruence).
Qed.

End WithLibm.

(** X4. The compiled loops run over the indices of [y0] only: a longer
    [y1] is accepted and its surplus ignored (where the numpy expression
    raises), nothing is read outside the two buffers, and an empty [y0]
    gives an empty array whatever the scalars are.  The cell [n] of the
    fast-math loop is its kernel applied to [y0[n]] and [y1[n]]. *)
Theorem loops_ignore_surplus
    (c_exp nb_exp : float -> float) (stray : nat -> float)
    (fast_cell : nat -> nat -> float -> float -> float -> float -> float -> float)
    (y0 y1 : ndarray) (x0 x1 x : float) :
  (List.length y0 <= List.length y1)%nat ->
  linear_cython c_exp stray y0 y1 x0 x1 x
  = inr (zip_with (spec_formula c_exp x0 x1 x) y0 y1) /\
  List.length (zip_with (spec_formula c_exp x0 x1 x) y0 y1) = List.length y0 /\
  (PrimFloat.eqb x1 x0 = false \/ y0 = [] ->
   linear_interpolate_good nb_exp stray y0 y1 x0 x1 x
   = inr (zip_with (spec_formula nb_exp x0 x1 x) y0 y1)) /\
  linear_interpolate_best stray fast_cell y0 y1 x0 x1 x
  = inr (map (fun n => fast_cell (List.length y0) n (nth n y0 0) (nth n y1 0)
                         x0 x1 x)
             (seq 0 (List.length y0))).
Proof.
  intros Hlen. split; [|split; [|split]].
  - now apply InterpFacts.linear_cython_zip.
  - now apply InterpFacts.zip_with_length_le.
  - intros [Hne | ->]; [|reflexivity].
    apply InterpFacts.linear_interpolate_good_zip; [assumption|].
    now apply FloatFacts.sub_nonzero.
  - rewrite InterpFacts.linear_interpolate_best_cells. apply (f_equal inr).
    apply map_ext_in. intros n Hn. apply in_seq in Hn.
    rewrite (InterpFacts.unchecked_get_nth stray y0 n 0) by lia.
    rewrite (InterpFacts.unchecked_get_nth stray y1 n 0) by lia.
    reflexivity.
Qed.

Lemma loops_ignore_surplus_witness :
  linear_cython Sample.exp Sample.stray [0.5; 1] [3; 4; 5] 2 3 2.5
  = inr (zip_with (spec_formula Sample.exp 2 3 2.5) [0.5; 1] [3; 4; 5]) /\
  List.length (zip_with (spec_formula Sample.exp 2 3 2.5) [0.5; 1] [3; 4; 5])
  = 2%nat /\
  (PrimFloat.eqb 3 2 = false \/ [0.5; 1] = [] ->
   linear_interpolate_good Sample.exp Sample.stray [0.5; 1] [3; 4; 5] 2 3 2.5
   = inr (zip_with (spec_formula Sample.exp 2 3 2.5) [0.5; 1] [3; 4; 5])) /\
  linear_interpolate_best Sample.stray Sample.reciprocal_cell
    [0.5; 1] [3; 4; 5] 2 3 2.5
  = inr (map (fun n => Sample.reciprocal_cell 2 n
                         (nth n [0.5; 1] 0) (nth n [3; 4; 5] 0) 2 3 2.5)
             (seq 0 2)).
Proof.
  apply (loops_ignore_surplus Sample.exp Sample.exp Sample.stray
           Sample.reciprocal_cell [0.5; 1] [3; 4; 5] 2 3 2.5).
  cbn. lia.
Defined.

End InterpExtra.

(** ** The interpolation loop without a compiler *)

Module PlainLoopFacts.

Import Np PlainLoop.
Open Scope float_scope.

Lemma checked_get_nth (a : ndarray) i d :
  (i < List.length a)%nat -> checked_get a i = inr (nth i a d).
Proof.
  intros Hi. unfold checked_get. now rewrite (nth_error_nth' a d Hi).
Qed.

Lemma checked_get_outside (a : ndarray) i :
  (List.length a <= i)%nat -> checked_get a i = inl IndexError.
Proof.
  intros Hi. unfold checked_get.
  now rewrite (proj2 (nth_error_None a i) Hi).
Qed.

Section WithLibm.

Variables (exp : float -> float) (pow : float -> float -> float).

(** While the indices stay inside both arrays the loop tabulates
    [bad_cell] over a zeroed segment. *)
Lemma bad_loop_fills y0 y1 x0 x1 x : forall m (pre : ndarray),
  (List.length pre + m <= List.length y0)%nat ->
  (List.length pre + m <= List.length y1)%nat ->
  bad_loop exp pow (seq (List.length pre) m) y0 y1 x0 x1 x (pre ++ zeros m)
  = inr (pre ++ map (fun i => bad_cell exp pow x0 x1 x (nth i y0 0) (nth i y1 0))
                  (seq (List.length pre) m)).
Proof.
  unfold zeros.
  induction m as [|m IH]; intros pre H0 H1; cbn [seq bad_loop repeat map].
  - reflexivity.
  - rewrite (checked_get_nth y0 _ 0) by lia.
    rewrite (checked_get_nth y1 _ 0) by lia.
    rewrite InterpFacts.setitem_app.
    specialize (IH (pre ++ [bad_cell exp pow x0 x1 x
                              (nth (List.length pre) y0 0)
                              (nth (List.length pre) y1 0)])).
    rewrite length_app in IH. cbn [List.length] in IH.
    rewrite Nat.add_1_r, <- !app_assoc in IH. cbn [app] in IH.
    apply IH; lia.
Qed.

(** An index outside [y1] ends the loop with [IndexError], whatever was
    written before. *)
Lemma bad_loop_raises y0 y1 x0 x1 x : forall ns out,
  (forall n, In n ns -> (n < List.length y0)%nat) ->
  (exists n, In n ns /\ (List.length y1 <= n)%nat) ->
  bad_loop exp pow ns y0 y1 x0 x1 x out = inl IndexError.
Proof.
  induction ns as [|n ns IH]; intros out Hin [k [Hk Hout]]; [contradiction|].
  cbn [bad_loop]. rewrite (checked_get_nth y0 n 0) by (apply Hin; now left).
  destruct (Nat.le_gt_cases (List.length y1) n) as [Hn|Hn].
  - now rewrite checked_get_outside.
  - rewrite (checked_get_nth y1 n 0 Hn). apply IH.
    + intros i Hi. apply Hin. now right.
    + destruct Hk as [-> | Hk]; [lia|]. now exists k.
Qed.

Lemma bad_loop_result y0 y1 x0 x1 x :
  linear_interpolate_bad exp pow y0 y1 x0 x1 x
  = if (List.length y0 <=? List.length y1)%nat
    then inr (map (fun i => bad_cell exp pow x0 x1 x (nth i y0 0) (nth i y1 0))
                  (seq 0 (List.length y0)))
    else inl IndexError.
Proof.
  unfold linear_interpolate_bad. cbv zeta.
  destruct (Nat.leb_spec (List.length y0) (List.length y1)) as [H|H].
  - apply (bad_loop_fills y0 y1 x0 x1 x (List.length y0) []); cbn; lia.
  - apply bad_loop_raises.
    + intros n Hn. apply in_seq in Hn. lia.
    + exists (List.length y1). split; [|lia]. apply in_seq. lia.
Qed.

(** X5. Run by the interpreter, the loop returns an array as long as [y0]
    whenever [y1] is at least that long, for all scalars, [x1 = x0]
    included: no division raises.  A shorter [y1] ends it with
    [IndexError]. *)
Theorem linear_interpolate_bad_result y0 y1 x0 x1 x :
  linear_interpolate_bad exp pow y0 y1 x0 x1 x
  = if (List.length y0 <=? List.length y1)%nat
    then inr (map (fun i => bad_cell exp pow x0 x1 x (nth i y0 0) (nth i y1 0))
                  (seq 0 (List.length y0)))
    else inl IndexError.
Proof.
  unfold linear_interpolate_bad. cbv zeta.
  destruct (Nat.leb_spec (List.length y0) (List.length y1)) as [H|H].
  - apply (bad_loop_fills y0 y1 x0 x1 x (List.length y0) []); cbn; lia.
  - apply bad_loop_raises.
    + intros n Hn. apply in_seq in Hn. lia.
    + exists (List.length y1). split; [|lia]. apply in_seq. lia.
Qed.

(** X6. When the library's [pow(a, 2.0)] is the product [a * a] and [exp]
    of the C library returns what numpy's [exp] returns on the squares of
    the elements of [y0], the interpreted loop and the Cython loop return
    the same array on inputs of one length. *)
Theorem linear_interpolate_bad_agrees
    (c_exp : float -> float) (stray : nat -> float) y0 y1 x0 x1 x :
  (forall a, pow a 2 = a * a) ->
  (forall a, In a y0 -> c_exp (a * a) = exp (a * a)) ->
  List.length y0 = List.length y1 ->
  exists out,
    linear_interpolate_bad exp pow y0 y1 x0 x1 x = inr out /\
    Interp.linear_cython c_exp stray y0 y1 x0 x1 x = inr out.
Proof.
  intros Hpow Hexp Hlen. eexists. split.
  - rewrite bad_loop_result.
    replace (List.length y0 <=? List.length y1)%nat with true
      by (symmetry; apply Nat.leb_le; lia).
    reflexivity.
  - rewrite InterpFacts.linear_cython_zip by lia.
    rewrite (InterpFacts.zip_with_seq _ 0 _ _ Hlen). apply (f_equal inr).
    apply map_ext_in. intros i Hi. apply in_seq in Hi.
    unfold bad_cell, Interp.spec_formula.
    rewrite Hpow, Hexp; [reflexivity|]. apply nth_In. lia.
Qed.

End WithLibm.

Lemma linear_interpolate_bad_agrees_witness :
  exists out,
    linear_interpolate_bad Sample.exp square_pow [0.5; 1] [3; 4] 2 3 2.5
    = inr out /\
    Interp.linear_cython Sample.exp Sample.stray [0.5; 1] [3; 4] 2 3 2.5
    = inr out.
Proof.
  apply (linear_interpolate_bad_agrees Sample.exp square_pow Sample.exp
           Sample.stray [0.5; 1] [3; 4] 2 3 2.5); reflexivity.
Defined.

End PlainLoopFacts.

(** ** The Mandelbrot matrix, cell by cell *)

Module MandelbrotCellsFacts.

Import Mandelbrot MandelbrotCells.



Lemma for_all_map {X Y S} (g : X -> Y) (body : Y -> S -> S) : forall xs s,
  for_all (map g xs) body s = for_all xs (fun x => body (g x)) s.
Proof.
  induction xs as [|x xs IH]; intros s; cbn [map for_all]; [reflexivity|].
  apply IH.
Qed.


Lemma range_succ k : (0 <= k)%Z -> range (k + 1) = range k ++ [k].
Proof.
  intros Hk. unfold range.
  replace (Z.to_nat (k + 1)) with (S (Z.to_nat k)) by lia.
  rewrite seq_S, map_app. cbn [map Nat.add]. now rewrite Z2Nat.id.
Qed.


Section WithLibm.

Variable hypot : float -> float -> float.




End WithLibm.




Section Orbits.

Variable hypot : float -> float -> float.

Lemma escape_index_snoc c n : forall ns z last,
  escape_index hypot (ns ++ [n]) c z last
  = if stays hypot (ns ++ [n]) c z then n
    else escape_index hypot ns c z last.
Proof.
  induction ns as [|k ns IH]; intros z last; cbn [app escape_index stays].
  - destruct (abs_le_10 hypot z); reflexivity.
  - destruct (abs_le_10 hypot z); cbn [andb]; [apply IH|reflexivity].
Qed.

Lemma stays_snoc c n : forall ns z,
  stays hypot (ns ++ [n]) c z = true -> stays hypot ns c z = true.
Proof.
  induction ns as [|k ns IH]; intros z; cbn [app stays]; [reflexivity|].
  destruct (abs_le_10 hypot z); cbn [andb]; [apply IH|discriminate].
Qed.

(** The index of a cell over [range k]: it lies in [0 .. k - 1], and it is
    [k - 1] when the orbit stays in the disc. *)
Lemma escape_index_range c : forall k,
  (0 <= Z.of_nat k)%Z ->
  let idx := escape_index hypot (range (Z.of_nat k)) c (PyInt 0) 0 in
  (0 <= idx)%Z /\ (idx <= Z.max 0 (Z.of_nat k - 1))%Z /\
  (stays hypot (range (Z.of_nat k)) c (PyInt 0) = true ->
   idx = Z.max 0 (Z.of_nat k - 1)).
Proof.
  induction k as [|k IH]; intros _; cbv zeta.
  - cbn. repeat split; lia.
  - replace (Z.of_nat (S k)) with (Z.of_nat k + 1)%Z by lia.
    rewrite range_succ by lia. rewrite escape_index_snoc.
    destruct (IH (Nat2Z.is_nonneg k)) as [H0 [H1 _]].
    destruct (stays hypot (range (Z.of_nat k) ++ [Z.of_nat k]) c (PyInt 0));
      repeat split; try lia; discriminate.
Qed.

(** One more iteration leaves an escaped cell as it is and raises the
    others by one at most. *)
Lemma cell_index_step size k i j :
  (0 <= k)%Z ->
  (cell_index hypot size k i j <= cell_index hypot size (k + 1) i j)%Z /\
  ((cell_index hypot size k i j < k - 1)%Z ->
   cell_index hypot size (k + 1) i j = cell_index hypot size k i j).
Proof.
  intros Hk. unfold cell_index. rewrite range_succ by assumption.
  rewrite escape_index_snoc.
  pose proof (escape_index_range (point size i j) (Z.to_nat k)
                (Nat2Z.is_nonneg _)) as H.
  cbv zeta in H. rewrite Z2Nat.id in H by assumption.
  destruct H as [H0 [H1 H2]].
  destruct (stays hypot (range k ++ [k]) (point size i j) (PyInt 0)) eqn:E.
  - split; [lia|]. apply stays_snoc in E. specialize (H2 E). lia.
  - split; [lia|reflexivity].
Qed.


End Orbits.





(** X9. Allowing more iterations never lowers the index of a cell, and a
    cell whose orbit has left the disc (index below [k - 1] after [k]
    iterations) keeps its index for every larger number of iterations. *)
Theorem cell_index_stable
    (hypot : float -> float -> float) (size k k' i j : Z) :
  (0 <= k)%Z -> (k <= k')%Z ->
  (cell_index hypot size k i j <= cell_index hypot size k' i j)%Z /\
  ((cell_index hypot size k i j < k - 1)%Z ->
   cell_index hypot size k' i j = cell_index hypot size k i j).
Proof.
  intros Hk Hle.
  replace k' with (k + Z.of_nat (Z.to_nat (k' - k)))%Z by lia.
  induction (Z.to_nat (k' - k)) as [|d IH].
  - rewrite Z.add_0_r. split; [lia|reflexivity].
  - replace (k + Z.of_nat (S d))%Z with (k + Z.of_nat d + 1)%Z by lia.
    destruct IH as [IH1 IH2].
    destruct (cell_index_step hypot size (k + Z.of_nat d) i j ltac:(lia))
      as [S1 S2].
    split; [lia|]. intros Hesc. rewrite S2; [now apply IH2|].
    rewrite IH2 by assumption. lia.
Qed.

Lemma cell_index_stable_witness :
  (cell_index Sample.hypot 4 5 0 0 <= cell_index Sample.hypot 4 20 0 0)%Z /\
  ((cell_index Sample.hypot 4 5 0 0 < 5 - 1)%Z ->
   cell_index Sample.hypot 4 20 0 0 = cell_index Sample.hypot 4 5 0 0).
Proof. apply (cell_index_stable Sample.hypot 4 5 20 0 0); lia. Defined.

End MandelbrotCellsFacts.

(** ** The library calls the hashing drivers make *)

Module HashingTraceFacts.

Import Hashing HashingTrace.

Lemma range_succ_r lo m :
  range lo (lo + Z.of_nat (S m)) = range lo (lo + Z.of_nat m) ++ [(lo + Z.of_nat m)%Z].
Proof.
  unfold range.
  replace (Z.to_nat (lo + Z.of_nat (S m) - lo)) with (S m) by lia.
  replace (Z.to_nat (lo + Z.of_nat m - lo)) with m by lia.
  rewrite seq_S, map_app. reflexivity.
Qed.

Lemma range_empty lo hi : (hi <= lo)%Z -> range lo hi = [].
Proof.
  intros H. unfold range. now replace (Z.to_nat (hi - lo)) with 0%nat by lia.
Qed.

Lemma calls_of_hash_one_length k :
  Z.of_nat (List.length (calls_of_hash_one k)) = Z.max 0 (k - 1).
Proof.
  unfold calls_of_hash_one. rewrite length_map, HashingFacts.range_length. lia.
Qed.

Lemma calls_of_hash_one_spec k it :
  In it (calls_of_hash_one k) <-> exists i, (1 <= i < k)%Z /\ it = (i * 10000)%Z.
Proof.
  unfold calls_of_hash_one. rewrite in_map_iff. split.
  - intros [i [<- Hi]]. apply HashingFacts.range_bounds in Hi. now exists i.
  - intros [i [Hi ->]]. exists i. split; [reflexivity|].
    unfold range. apply in_map_iff. exists (Z.to_nat (i - 1)).
    split; [lia|]. apply in_seq. lia.
Qed.

Lemma concat_repeat_length {X} (c : list X) n :
  List.length (List.concat (repeat c n)) = (n * List.length c)%nat.
Proof.
  induction n as [|n IH]; cbn; [reflexivity|]. rewrite length_app, IH. lia.
Qed.

(** The calls of [hash_one(0)], ..., [hash_one(m - 1)] taken together. *)
Lemma pool_calls_length m :
  (2 * Z.of_nat (List.length
                   (List.concat (map calls_of_hash_one (range 0 (Z.of_nat (S m)))))))%Z
  = (Z.of_nat m * (Z.of_nat m - 1))%Z.
Proof.
  induction m as [|m IH].
  - reflexivity.
  - change (Z.of_nat (S (S m))) with (0 + Z.of_nat (S (S m)))%Z.
    rewrite range_succ_r, map_app, concat_app, length_app.
    cbn [map List.concat]. rewrite app_nil_r, Nat2Z.inj_add.
    rewrite calls_of_hash_one_length.
    change (0 + Z.of_nat (S m))%Z with (Z.of_nat (S m)) in *. lia.
Qed.

Section WithHashlib.

Variable pbkdf2_hmac : string -> bytes -> bytes -> Z -> result bytes.

Lemma run_calls_made : forall its l,
  snd (run_calls pbkdf2_hmac its l) = l ++ made pbkdf2_hmac its.
Proof.
  induction its as [|it its IH]; intros l; cbn [run_calls made].
  - now rewrite app_nil_r.
  - destruct (pbkdf2_hmac "sha256"%string password salt it); [reflexivity|].
    rewrite IH, <- app_assoc. reflexivity.
Qed.

Lemma made_incl : forall its it, In it (made pbkdf2_hmac its) -> In it its.
Proof.
  induction its as [|it0 its IH]; intros it; cbn [made]; [trivial|].
  destruct (pbkdf2_hmac "sha256"%string password salt it0).
  - intros [H|[]]. now left.
  - intros [H|H]; [now left|right; now apply IH].
Qed.

(** The calls made when the first failing one is [it], after the
    successful ones of [pre]. *)
Lemma run_calls_stop pre it post e l :
  (forall it', In it' pre ->
               exists d, pbkdf2_hmac "sha256"%string password salt it' = inr d) ->
  pbkdf2_hmac "sha256"%string password salt it = inl e ->
  run_calls pbkdf2_hmac (pre ++ it :: post) l = (Some e, l ++ pre ++ [it]).
Proof.
  intros Hpre Hit. rewrite HashingFacts.run_calls_app.
  rewrite HashingFacts.run_calls_success by assumption.
  cbn [run_calls]. rewrite Hit. now rewrite <- app_assoc.
Qed.

Lemma replays_log {A} (m : M A) its (a : A) l :
  Replays pbkdf2_hmac m its a ->
  snd (m l) = l ++ made pbkdf2_hmac its.
Proof.
  intros Hm. rewrite Hm, <- run_calls_made.
  destruct (run_calls pbkdf2_hmac its l) as [[e|] l']; reflexivity.
Qed.

Variable started : nat -> bool.

(** The calls of a list comprehension are calls of its elements. *)
Lemma mmap_log {X Y} (f : X -> M Y) (c : X -> list Z) (g : X -> Y) :
  (forall x, Replays pbkdf2_hmac (f x) (c x) (g x)) ->
  forall xs l it,
    In it (snd (mmap f xs l)) ->
    In it l \/ exists x, In x xs /\ In it (c x).
Proof.
  intros Hf xs l it Hin.
  rewrite (replays_log (mmap f xs) (List.concat (map c xs)) (map g xs) l
             (HashingFacts.Replays_mmap pbkdf2_hmac f c g Hf xs)) in Hin.
  apply in_app_or in Hin. destruct Hin as [Hin|Hin]; [now left|right].
  apply made_incl, in_concat in Hin. destruct Hin as [cs [Hcs Hin]].
  apply in_map_iff in Hcs. destruct Hcs as [x [<- Hx]]. now exists x.
Qed.

(** So are those of the tasks that run behind a failed one. *)
Lemma stragglers_log {X Y} (f : X -> M Y) (c : X -> list Z) (g : X -> Y) :
  (forall x, Replays pbkdf2_hmac (f x) (c x) (g x)) ->
  forall chunks k l it,
    In it (stragglers started f k chunks l) ->
    In it l \/ exists x, In x (List.concat chunks) /\ In it (c x).
Proof.
  intros Hf. induction chunks as [|chunk chunks IH]; intros k l it;
    cbn [stragglers List.concat].
  - now left.
  - intros Hin. apply IH in Hin.
    destruct Hin as [Hin | [x [Hx Hc]]].
    + destruct (started k); [|now left].
      apply (mmap_log f c g Hf) in Hin.
      destruct Hin as [Hin | [x [Hx Hc]]]; [now left|right].
      exists x. split; [apply in_or_app; now left|exact Hc].
    + right. exists x. split; [apply in_or_app; now right|exact Hc].
Qed.

Lemma pool_map_log {X Y} (f : X -> M Y) (c : X -> list Z) (g : X -> Y) :
  (forall x, Replays pbkdf2_hmac (f x) (c x) (g x)) ->
  forall chunks k l it,
    In it (snd (pool_map started f k chunks l)) ->
    In it l \/ exists x, In x (List.concat chunks) /\ In it (c x).
Proof.
  intros Hf. induction chunks as [|chunk chunks IH]; intros k l it;
    cbn [pool_map List.concat].
  - intros Hin. now left.
  - pose proof (mmap_log f c g Hf chunk l) as Hchunk.
    destruct (mmap f chunk l) as [[e|ys] l']; cbn [snd] in Hchunk.
    + cbn [snd]. intros Hin. apply (stragglers_log f c g Hf) in Hin.
      destruct Hin as [Hin | [x [Hx Hc]]].
      * destruct (Hchunk it Hin) as [H | [x [Hx Hc]]]; [now left|right].
        exists x. split; [apply in_or_app; now left|exact Hc].
      * right. exists x. split; [apply in_or_app; now right|exact Hc].
    + intros Hin.
      assert (Hin' : In it (snd (pool_map started f (S k) chunks l'))).
      { destruct (pool_map started f (S k) chunks l') as [[e|yss] l''];
          exact Hin. }
      apply IH in Hin'. destruct Hin' as [Hin' | [x [Hx Hc]]].
      * destruct (Hchunk it Hin') as [H | [x [Hx Hc]]]; [now left|right].
        exists x. split; [apply in_or_app; now left|exact Hc].
      * right. exists x. split; [apply in_or_app; now right|exact Hc].
Qed.

(** The calls of [hash_all_process(n)], whichever tasks ran, are calls of
    [hash_one(k)] for arguments [k] of [range(n)]. *)
Lemma hash_all_process_log n l it :
  In it (snd (hash_all_process pbkdf2_hmac started n l)) ->
  In it l \/ exists k, (0 <= k < n)%Z /\ In it (calls_of_hash_one k).
Proof.
  unfold hash_all_process, executor_map. intros Hin.
  assert (Hpool : In it (snd (pool_map started (hash_one pbkdf2_hmac) 0
                                (get_chunks (List.length (range 0 n)) 2
                                   (range 0 n)) l))).
  { unfold mbind in Hin.
    destruct (pool_map started (hash_one pbkdf2_hmac) 0 _ l)
      as [[e|rs] l']; [exact Hin|].
    cbn [mret snd] in *.
    rewrite (HashingFacts.Replays_pass pbkdf2_hmac
               (combine (range 0 n) (List.concat rs)) l') in Hin.
    exact Hin. }
  apply (pool_map_log (hash_one pbkdf2_hmac) calls_of_hash_one
           (fun _ => "done"%string)
           (HashingFacts.hash_one_replays pbkdf2_hmac)) in Hpool.
  destruct Hpool as [H | [k [Hk Hc]]]; [now left|right].
  rewrite HashingFacts.get_chunks_concat in Hk by lia.
  apply HashingFacts.range_bounds in Hk. now exists k.
Qed.

End WithHashlib.

(** X10. Whatever the library does, and whichever tasks of the pool ran,
    every iteration count a driver hands to the library is [i * 10000] for
    some [1 <= i < n]: positive, and never more than [(n - 1) * 10000]. *)
Theorem iteration_counts_positive
    (pbkdf2_hmac : string -> bytes -> bytes -> Z -> result bytes)
    (started : nat -> bool) (n : Z) (l : log) (it : Z) :
  In it (snd (hash_one pbkdf2_hmac n l)) \/
  In it (snd (hash_all pbkdf2_hmac n l)) \/
  In it (snd (hash_all_process pbkdf2_hmac started n l)) ->
  In it l \/ exists i, (1 <= i < n)%Z /\ it = (i * 10000)%Z.
Proof.
  assert (H : forall its,
             (forall c, In c its -> exists k, (k <= n)%Z /\
                          In c (calls_of_hash_one k)) ->
             In it (l ++ made pbkdf2_hmac its) ->
             In it l \/ exists i, (1 <= i < n)%Z /\ it = (i * 10000)%Z).
  { intros its Hits Hin. apply in_app_or in Hin.
    destruct Hin as [Hin|Hin]; [now left|right].
    apply made_incl in Hin. destruct (Hits it Hin) as [k [Hk Hc]].
    apply calls_of_hash_one_spec in Hc. destruct Hc as [i [Hi ->]].
    exists i. split; [lia|reflexivity]. }
  intros [Hin|[Hin|Hin]].
  - rewrite (replays_log pbkdf2_hmac _ _ _ l
               (HashingFacts.hash_one_replays pbkdf2_hmac n)) in Hin.
    apply (H _ (fun c Hc => ex_intro _ n (conj (Z.le_refl n) Hc)) Hin).
  - rewrite (replays_log pbkdf2_hmac _ _ _ l
               (HashingFacts.hash_all_replays pbkdf2_hmac n)) in Hin.
    apply (H (List.concat (repeat (calls_of_hash_one n) (Z.to_nat n))));
      [|exact Hin].
    intros c Hc. apply in_concat in Hc. destruct Hc as [cs [Hcs Hc]].
    apply repeat_spec in Hcs. subst cs. exists n. split; [lia|exact Hc].
  - apply hash_all_process_log in Hin.
    destruct Hin as [Hin | [k [Hk Hc]]]; [now left|right].
    apply calls_of_hash_one_spec in Hc. destruct Hc as [i [Hi ->]].
    exists i. split; [lia|reflexivity].
Qed.

Lemma iteration_counts_positive_witness :
  In 10000%Z [] \/ exists i, (1 <= i < 6)%Z /\ 10000%Z = (i * 10000)%Z.
Proof.
  apply (iteration_counts_positive (refuse_from 0) Sample.all_started
           6 [] 10000).
  right. right. cbn. right. now left.
Defined.

(** X11. The serial drivers stop at the first library call that raises:
    when [hash_one(n)] would make the calls [pre], [it], [post] in this
    order, [pre] succeeds and [it] raises [e], then [hash_one(n)] and
    [hash_all(n)] (for [n >= 1]) raise [e] having made the calls of [pre]
    and [it] and no other. *)
Theorem serial_drivers_stop_at_failure
    (pbkdf2_hmac : string -> bytes -> bytes -> Z -> result bytes)
    (n : Z) (pre post : list Z) (it : Z) (e : exn) (l : log) :
  (1 <= n)%Z ->
  calls_of_hash_one n = pre ++ it :: post ->
  (forall it', In it' pre ->
               exists d, pbkdf2_hmac "sha256"%string password salt it' = inr d) ->
  pbkdf2_hmac "sha256"%string password salt it = inl e ->
  hash_one pbkdf2_hmac n l = (inl e, l ++ pre ++ [it]) /\
  hash_all pbkdf2_hmac n l = (inl e, l ++ pre ++ [it]).
Proof.
  intros Hn Hcalls Hpre Hit. split.
  - rewrite (HashingFacts.hash_one_replays pbkdf2_hmac n l), Hcalls.
    now rewrite (run_calls_stop pbkdf2_hmac pre it post e l Hpre Hit).
  - rewrite (HashingFacts.hash_all_replays pbkdf2_hmac n l).
    replace (Z.to_nat n) with (S (Z.to_nat (n - 1))) by lia.
    cbn [repeat List.concat]. rewrite Hcalls, <- app_assoc.
    cbn [app].
    now rewrite (run_calls_stop pbkdf2_hmac pre it _ e l Hpre Hit).
Qed.

Lemma serial_drivers_stop_at_failure_witness :
  hash_one (refuse_from 20000) 4 [] = (inl (LibraryError 1), [] ++ [10000%Z] ++ [20000%Z]) /\
  hash_all (refuse_from 20000) 4 [] = (inl (LibraryError 1), [] ++ [10000%Z] ++ [20000%Z]).
Proof.
  apply (serial_drivers_stop_at_failure (refuse_from 20000) 4
           [10000%Z] [30000%Z] 20000 (LibraryError 1) []).
  - lia.
  - reflexivity.
  - intros it' [<- | []]. now exists [].
  - reflexivity.
Defined.

(** X12. When the library calls succeed, [hash_all(n)] makes [n * (n - 1)]
    of them and [hash_all_process(n)] only [(n - 1) * (n - 2) / 2]: the
    two drivers do not do the same work. *)
Theorem drivers_call_counts
    (pbkdf2_hmac : string -> bytes -> bytes -> Z -> result bytes)
    (started : nat -> bool) (n : Z) (l : log) :
  (1 <= n)%Z ->
  (forall i, (1 <= i < n)%Z ->
             exists d, pbkdf2_hmac "sha256"%string password salt (i * 10000)%Z = inr d) ->
  Z.of_nat (List.length (snd (hash_all pbkdf2_hmac n l)))
  = (Z.of_nat (List.length l) + n * (n - 1))%Z /\
  (2 * Z.of_nat (List.length
                   (snd (hash_all_process pbkdf2_hmac started n l))))%Z
  = (2 * Z.of_nat (List.length l) + (n - 1) * (n - 2))%Z.
Proof.
  intros Hn Hok.
  assert (Hcalls : forall k it, (k <= n)%Z -> In it (calls_of_hash_one k) ->
            exists d, pbkdf2_hmac "sha256"%string password salt it = inr d).
  { intros k it Hk Hin. apply calls_of_hash_one_spec in Hin.
    destruct Hin as [i [Hi ->]]. apply Hok. lia. }
  split.
  - rewrite (HashingFacts.hash_all_replays pbkdf2_hmac n l).
    rewrite HashingFacts.run_calls_success.
    + cbn [snd]. rewrite length_app, concat_repeat_length.
      rewrite Nat2Z.inj_add, Nat2Z.inj_mul, calls_of_hash_one_length.
      rewrite Z2Nat.id, Z.max_r by lia. reflexivity.
    + intros it Hin. apply in_concat in Hin. destruct Hin as [c [Hc Hin]].
      apply repeat_spec in Hc. subst c. apply (Hcalls n); [lia|exact Hin].
  - rewrite HashingFacts.hash_all_process_success.
    + cbn [snd]. rewrite length_app, Nat2Z.inj_add.
      replace n with (Z.of_nat (S (Z.to_nat (n - 1)))) at 1 by lia.
      pose proof (pool_calls_length (Z.to_nat (n - 1))) as Hlen.
      rewrite Z2Nat.id in Hlen by lia. lia.
    + intros it Hin. apply in_concat in Hin. destruct Hin as [c [Hc Hin]].
      apply in_map_iff in Hc. destruct Hc as [k [<- Hk]].
      apply HashingFacts.range_bounds in Hk. apply (Hcalls k); [lia|exact Hin].
Qed.

Lemma drivers_call_counts_witness :
  Z.of_nat (List.length (snd (hash_all Sample.pbkdf2_hmac 3 [])))
  = (Z.of_nat (List.length (@nil Z)) + 3 * (3 - 1))%Z /\
  (2 * Z.of_nat (List.length
                   (snd (hash_all_process Sample.pbkdf2_hmac
                           Sample.all_started 3 []))))%Z
  = (2 * Z.of_nat (List.length (@nil Z)) + (3 - 1) * (3 - 2))%Z.
Proof.
  apply (drivers_call_counts Sample.pbkdf2_hmac Sample.all_started 3 []).
  - lia.
  - intros i Hi. exists [].
    assert (E : i = 1%Z \/ i = 2%Z) by lia.
    destruct E as [-> | ->]; reflexivity.
Defined.

Lemma map_seq_from {Y} (f : nat -> Y) : forall b a,
  map f (seq a b) = map (fun k => f (a + k)%nat) (seq 0 b).
Proof.
  induction b as [|b IH]; intros a; cbn [seq map]; [reflexivity|].
  rewrite Nat.add_0_r. f_equal.
  rewrite IH, <- seq_shift, map_map. apply map_ext. intros k.
  f_equal. lia.
Qed.

Lemma range_split lo mid hi :
  (lo <= mid <= hi)%Z -> range lo hi = range lo mid ++ range mid hi.
Proof.
  intros H. unfold range.
  replace (Z.to_nat (hi - lo))
    with (Z.to_nat (mid - lo) + Z.to_nat (hi - mid))%nat by lia.
  rewrite seq_app, map_app. f_equal. cbn [Nat.add].
  rewrite map_seq_from. apply map_ext. intros k. lia.
Qed.

Lemma range_cons lo hi : (lo < hi)%Z -> range lo hi = lo :: range (lo + 1) hi.
Proof.
  intros H. rewrite (range_split lo (lo + 1) hi) by lia.
  unfold range at 1. replace (Z.to_nat (lo + 1 - lo)) with 1%nat by lia.
  cbn [seq map app]. f_equal. lia.
Qed.

(** X13. No library call is made for small arguments: [hash_one(n)] and
    [hash_all(n)] for [n <= 1], and [hash_all_process(n + 1)], make none
    and return ["done"], even with a library that always raises. *)
Theorem small_arguments_make_no_call
    (pbkdf2_hmac : string -> bytes -> bytes -> Z -> result bytes)
    (started : nat -> bool) (n : Z) (l : log) :
  (n <= 1)%Z ->
  hash_one pbkdf2_hmac n l = (inr "done"%string, l) /\
  hash_all pbkdf2_hmac n l = (inr "done"%string, l) /\
  hash_all_process pbkdf2_hmac started (n + 1) l = (inr "done"%string, l).
Proof.
  intros Hn.
  assert (Hnil : forall k, (k <= 1)%Z -> calls_of_hash_one k = []).
  { intros k Hk. unfold calls_of_hash_one. now rewrite range_empty by lia. }
  assert (Hrep : forall m, List.concat (repeat (@nil Z) m) = []).
  { induction m as [|m IH]; cbn; [reflexivity|exact IH]. }
  split; [|split].
  - now rewrite (HashingFacts.hash_one_replays pbkdf2_hmac n l), Hnil.
  - rewrite (HashingFacts.hash_all_replays pbkdf2_hmac n l), Hnil by assumption.
    now rewrite Hrep.
  - assert (Hcalls : List.concat (map calls_of_hash_one (range 0 (n + 1)))
                     = @nil Z).
    { rewrite (map_ext_in _ (fun _ => @nil Z)).
      - rewrite HashingFacts.concat_constant. apply Hrep.
      - intros k Hk. apply HashingFacts.range_bounds in Hk. apply Hnil. lia. }
    rewrite HashingFacts.hash_all_process_success.
    + now rewrite Hcalls, app_nil_r.
    + rewrite Hcalls. intros it [].
Qed.

Lemma small_arguments_make_no_call_witness :
  hash_one (refuse_from 0) 1 [] = (inr "done"%string, []) /\
  hash_all (refuse_from 0) 1 [] = (inr "done"%string, []) /\
  hash_all_process (refuse_from 0) Sample.all_started (1 + 1) []
  = (inr "done"%string, []).
Proof.
  apply (small_arguments_make_no_call (refuse_from 0) Sample.all_started 1 []).
  lia.
Defined.

(** X14. With a library that accepts the iteration counts from 1 to
    [INT_MAX] and refuses larger ones with [OverflowError], [hash_one(n)]
    returns ["done"] for [n <= 214749] and raises [OverflowError] for every
    larger [n], at the call with [214749 * 10000] iterations. *)
Theorem hash_one_overflow
    (pbkdf2_hmac : string -> bytes -> bytes -> Z -> result bytes)
    (n : Z) (l : log) :
  (forall it, (1 <= it <= int_max)%Z ->
              exists d, pbkdf2_hmac "sha256"%string password salt it = inr d) ->
  (forall it, (int_max < it)%Z ->
              pbkdf2_hmac "sha256"%string password salt it = inl OverflowError) ->
  ((n <= 214749)%Z ->
   hash_one pbkdf2_hmac n l = (inr "done"%string, l ++ calls_of_hash_one n)) /\
  ((214749 < n)%Z ->
   hash_one pbkdf2_hmac n l
   = (inl OverflowError, l ++ calls_of_hash_one 214749%Z ++ [2147490000%Z])).
Proof.
  intros Haccept Hreject. unfold int_max in *.
  assert (Hsmall : forall k it, (k <= 214749)%Z -> In it (calls_of_hash_one k) ->
            exists d, pbkdf2_hmac "sha256"%string password salt it = inr d).
  { intros k it Hk Hin. apply calls_of_hash_one_spec in Hin.
    destruct Hin as [i [Hi ->]]. apply Haccept. lia. }
  split; intros Hn.
  - rewrite (HashingFacts.hash_one_replays pbkdf2_hmac n l).
    rewrite HashingFacts.run_calls_success; [reflexivity|].
    intros it Hin. now apply (Hsmall n).
  - rewrite (HashingFacts.hash_one_replays pbkdf2_hmac n l).
    assert (Hcalls : calls_of_hash_one n
                     = calls_of_hash_one 214749%Z
                       ++ 2147490000%Z
                          :: map (fun i => (i * 10000)%Z) (range 214750%Z n)).
    { unfold calls_of_hash_one.
      rewrite (range_split 1%Z 214749%Z n) by lia.
      rewrite (range_cons 214749%Z n) by lia.
      now rewrite map_app. }
    rewrite Hcalls.
    rewrite (run_calls_stop pbkdf2_hmac (calls_of_hash_one 214749%Z)
               2147490000%Z _ OverflowError l); [reflexivity| |].
    + intros it Hin. apply (Hsmall 214749%Z); [lia|exact Hin].
    + apply Hreject. lia.
Qed.

Lemma hash_one_overflow_witness :
  ((3 <= 214749)%Z ->
   hash_one Sample.pbkdf2_hmac 3 []
   = (inr "done"%string, [] ++ calls_of_hash_one 3)) /\
  ((214749 < 3)%Z ->
   hash_one Sample.pbkdf2_hmac 3 []
   = (inl OverflowError, [] ++ calls_of_hash_one 214749%Z ++ [2147490000%Z])).
Proof.
  apply (hash_one_overflow Sample.pbkdf2_hmac 3%Z []).
  - intros it Hit. unfold int_max in Hit. exists []. unfold Sample.pbkdf2_hmac.
    destruct (Z.ltb_spec it 1); [lia|].
    destruct (Z.ltb_spec 2147483647 it); [lia|]. reflexivity.
  - intros it Hit. unfold int_max in Hit. unfold Sample.pbkdf2_hmac.
    destruct (Z.ltb_spec it 1); [lia|].
    destruct (Z.ltb_spec 2147483647 it); [reflexivity|lia].
Defined.

(** C10, as the code has it.  The library takes the iteration count as a
    C [int]: with [n = 214750] the last call of [hash_one(n)] asks for
    [214749 * 10000] iterations, more than [INT_MAX], and [hash_all(n)]
    raises [OverflowError] in its first round, while [hash_all_process(n)],
    which goes up to [hash_one(n - 1)] only, returns ["done"]. *)
Lemma hash_all_overflows :
  fst (hash_all Sample.pbkdf2_hmac 214750 []) = inl OverflowError /\
  fst (hash_all_process Sample.pbkdf2_hmac Sample.all_started 214750 [])
  = inr "done"%string.
Proof.
  assert (Hok : forall k it,
            (k <= 214749)%Z -> In it (calls_of_hash_one k) ->
            exists d, Sample.pbkdf2_hmac "sha256"%string password salt it
                      = inr d).
  { intros k it Hk Hin. apply calls_of_hash_one_spec in Hin.
    destruct Hin as [i [Hi ->]]. exists []. unfold Sample.pbkdf2_hmac.
    destruct (Z.ltb_spec (i * 10000) 1); [lia|].
    destruct (Z.ltb_spec 2147483647 (i * 10000)); [lia|]. reflexivity. }
  split.
  - assert (Hcalls : calls_of_hash_one 214750%Z
                     = calls_of_hash_one 214749%Z ++ [2147490000%Z]).
    { unfold calls_of_hash_one.
      rewrite (range_split 1%Z 214749%Z 214750%Z) by lia.
      rewrite (range_cons 214749%Z 214750%Z) by lia.
      rewrite (range_empty (214749 + 1)%Z 214750%Z) by lia.
      rewrite map_app. apply f_equal. reflexivity. }
    rewrite (HashingFacts.hash_all_replays Sample.pbkdf2_hmac 214750%Z []).
    replace (Z.to_nat 214750) with (S (Z.to_nat 214749)) by lia.
    cbn [repeat List.concat]. rewrite Hcalls, <- app_assoc. cbn [app].
    rewrite (run_calls_stop Sample.pbkdf2_hmac (calls_of_hash_one 214749%Z)
               2147490000%Z
               (List.concat
                  (repeat (calls_of_hash_one 214749%Z ++ [2147490000%Z])
                     (Z.to_nat 214749)))
               OverflowError []).
    + reflexivity.
    + intros it Hin. apply (Hok 214749%Z); [lia|exact Hin].
    + reflexivity.
  - rewrite HashingFacts.hash_all_process_success; [reflexivity|].
    intros it Hin. apply in_concat in Hin. destruct Hin as [c [Hc Hin]].
    apply in_map_iff in Hc. destruct Hc as [k [<- Hk]].
    apply HashingFacts.range_bounds in Hk. apply (Hok k); [lia|exact Hin].
Qed.

End HashingTraceFacts.

(** ** More on the memoised function *)

Module CacheExtra.

Import Cache CachePlain.

Lemma after_app : forall h1 h2 w, after (h1 ++ h2) w = after h2 (after h1 w).
Proof.
  induction h1 as [|x h1 IH]; intros h2 w; cbn [app after]; [reflexivity|].
  apply IH.
Qed.

Lemma find_remove_length k : forall t e,
  find k t = Some e -> S (List.length (remove k t)) = List.length t.
Proof.
  induction t as [|[k0 v0] t IH]; intros e; cbn [find remove]; [discriminate|].
  destruct (key_eq k0 k); [reflexivity|].
  intros H. cbn [List.length]. f_equal. now apply (IH e).
Qed.

Lemma find_exists k0 : forall t k v,
  In (k, v) t -> key_eq k k0 = true -> exists e, find k0 t = Some e.
Proof.
  induction t as [|[k1 v1] t IH]; intros k v Hin Hk; [contradiction|].
  cbn [find]. destruct (key_eq k1 k0) eqn:E; [now eexists|].
  destruct Hin as [Hin|Hin]; [inversion Hin; subst; congruence|].
  now apply (IH k v).
Qed.

Lemma firstn_succ_incl {A} : forall p (t : list A) e,
  In e (firstn p t) -> In e (firstn (S p) t).
Proof.
  induction p as [|p IH]; intros [|a t] e; cbn [firstn]; try contradiction.
  intros [H|H]; [now left|right; now apply IH].
Qed.

(** Removing the entry a lookup found moves no other entry back. *)
Lemma firstn_remove k : forall t p e e0,
  In e (firstn p t) -> find k t = Some e0 ->
  e = e0 \/ In e (firstn p (remove k t)).
Proof.
  induction t as [|[k1 v1] t IH]; intros p e e0; cbn [find remove];
    [discriminate|].
  destruct p as [|p]; [contradiction|]. cbn [firstn].
  destruct (key_eq k1 k).
  - intros [H|H] E; inversion E; subst; [now left|].
    right. now apply firstn_succ_incl.
  - intros [H|H] E; cbn [firstn]; [right; now left|].
    destruct (IH p e e0 H E) as [H'|H']; [now left|right; now right].
Qed.

Lemma firstn_firstn_incl {A} : forall p q (t : list A) e,
  (p <= q)%nat -> In e (firstn p t) -> In e (firstn p (firstn q t)).
Proof.
  induction p as [|p IH]; intros [|q] [|a t] e Hle; cbn [firstn];
    try contradiction; try lia.
  intros [H|H]; [now left|right]. apply IH; [lia|exact H].
Qed.

(** One call moves an entry back by one place at most. *)
Lemma call_keeps_recent y w p e :
  (p <= 3)%nat ->
  In e (firstn p (table w)) ->
  In e (firstn (S p) (table (snd (compute_a_slow_result_cache y w)))).
Proof.
  intros Hp Hin. unfold compute_a_slow_result_cache, lru_cache.
  destruct (find (make_key y) (table w)) as [[k' v]|] eqn:Hfind.
  - cbn [snd table firstn].
    destruct (firstn_remove (make_key y) (table w) p e (k', v) Hin Hfind)
      as [H|H]; [now left|now right].
  - cbn [time_sleep]. destruct (mul2 y) as [err|v]; cbn [snd table].
    + now apply firstn_succ_incl.
    + cbn [firstn]. right. apply firstn_firstn_incl; [cbn; lia|exact Hin].
Qed.

Lemma calls_keep_recent e : forall others w p,
  (p + List.length others <= 4)%nat ->
  In e (firstn p (table w)) ->
  In e (table (after others w)).
Proof.
  induction others as [|y others IH]; intros w p Hp Hin; cbn [after].
  - now apply (CacheFacts.firstn_incl p).
  - apply (IH _ (S p)); [cbn [List.length] in Hp; lia|].
    apply call_keeps_recent; [cbn [List.length] in Hp; lia|exact Hin].
Qed.

Lemma call_size y w :
  (List.length (table w) <= 4)%nat ->
  (List.length (table (snd (compute_a_slow_result_cache y w))) <= 4)%nat.
Proof.
  intros Hw. unfold compute_a_slow_result_cache, lru_cache.
  destruct (find (make_key y) (table w)) as [[k' v]|] eqn:Hfind.
  - cbn [snd table List.length].
    now rewrite (find_remove_length _ _ _ Hfind).
  - cbn [time_sleep]. destruct (mul2 y) as [err|v];
      cbn [snd table List.length]; [exact Hw|].
    rewrite length_firstn. lia.
Qed.

Lemma call_sleeps y w :
  (sleeps w <= sleeps (snd (compute_a_slow_result_cache y w)) <= S (sleeps w))%nat.
Proof.
  unfold compute_a_slow_result_cache, lru_cache.
  destruct (find (make_key y) (table w)) as [[k' v]|].
  - cbn [snd sleeps]. lia.
  - cbn [time_sleep]. destruct (mul2 y); cbn [snd sleeps]; lia.
Qed.

(** X15. The table never holds more than four results. *)
Theorem table_never_exceeds_maxsize (history : list pyval) :
  (List.length (table (after history initial)) <= 4)%nat.
Proof.
  assert (H : forall h w, (List.length (table w) <= 4)%nat ->
                          (List.length (table (after h w)) <= 4)%nat).
  { induction h as [|y h IH]; intros w Hw; cbn [after]; [exact Hw|].
    apply IH. now apply call_size. }
  apply H. cbn. lia.
Qed.

(** X16. The plain function sleeps once per call; the memoised one never
    sleeps more often, whatever the arguments are. *)
Theorem cache_never_sleeps_more (history : list pyval) (w : world) :
  sleeps (after_plain history w) = (sleeps w + List.length history)%nat /\
  (sleeps w <= sleeps (after history w) <= sleeps (after_plain history w))%nat.
Proof.
  revert w. induction history as [|y history IH]; intros w;
    cbn [after after_plain List.length].
  - split; lia.
  - destruct (IH (snd (compute_a_slow_result y w))) as [P1 _].
    destruct (IH (snd (compute_a_slow_result_cache y w))) as [_ C1].
    destruct (IH (snd (compute_a_slow_result_cache y w))) as [P2 _].
    pose proof (call_sleeps y w) as Hs.
    rewrite P1. rewrite P2 in C1.
    unfold compute_a_slow_result, time_sleep. cbn [snd sleeps]. split; lia.
Qed.

(** X17. A result stays available for the next three calls at least:
    after a call with an [int] or [str] argument [x] and at most three
    further calls, whatever their arguments, the call with [x] is served
    from the table, without sleeping, and returns [x * 2]. *)
Theorem result_survives_three_calls
    (history others : list pyval) (x : pyval) :
  (exists n, x = PInt n) \/ (exists s, x = PStr s) ->
  (List.length others <= 3)%nat ->
  let w := after others (snd (compute_a_slow_result_cache x
                                (after history initial))) in
  fst (compute_a_slow_result_cache x w) = mul2 x /\
  sleeps (snd (compute_a_slow_result_cache x w)) = sleeps w.
Proof.
  intros Hx Hlen w.
  assert (Hw : w = after (history ++ x :: others) initial).
  { unfold w. now rewrite after_app. }
  assert (Hkey : key_eq (make_key x) (make_key x) = true).
  { destruct Hx as [[n ->]|[s ->]]; cbn.
    - apply Z.eqb_refl.
    - apply String.eqb_refl. }
  assert (Hmul : exists v, mul2 x = inr v).
  { destruct Hx as [[n ->]|[s ->]]; now eexists. }
  destruct Hmul as [v Hmul].
  (* the call with [x] leaves its entry in front *)
  assert (Hfront : In (make_key x, v)
                     (firstn 1 (table (snd (compute_a_slow_result_cache x
                                              (after history initial)))))).
  { pose proof (CacheFacts.after_sound history (fun _ => False) initial
                  CacheFacts.initial_sound) as Ht.
    unfold compute_a_slow_result_cache, lru_cache.
    destruct (find (make_key x) (table (after history initial)))
      as [[k' v']|] eqn:Hfind.
    - apply CacheFacts.find_some in Hfind. destruct Hfind as [Hin Hk].
      destruct (Ht k' v' Hin) as [y [_ [Hy Hv]]]. subst k'.
      apply (CacheFacts.bare_key_eq x y Hx) in Hk. subst y.
      rewrite Hmul in Hv. injection Hv as <-. cbn. now left.
    - cbn [time_sleep]. rewrite Hmul. cbn. now left. }
  assert (Hin : In (make_key x, v) (table w)).
  { unfold w. apply (calls_keep_recent _ others _ 1); [lia|exact Hfront]. }
  destruct (find_exists (make_key x) (table w) _ _ Hin Hkey) as [[k' v'] Hfind].
  split.
  - rewrite Hw.
    destruct (CacheFacts.cached_call_value (history ++ x :: others) x)
      as [H|[y [_ [Hk H]]]]; [exact H|].
    cbv zeta in H. rewrite H. f_equal. now apply CacheFacts.bare_key_eq.
  - unfold compute_a_slow_result_cache, lru_cache. now rewrite Hfind.
Qed.

Lemma result_survives_three_calls_witness :
  let w := after [PInt 1; PFloat 2; PStr "a"]
             (snd (compute_a_slow_result_cache (PInt 10)
                     (after [PBool true] initial))) in
  fst (compute_a_slow_result_cache (PInt 10) w) = mul2 (PInt 10) /\
  sleeps (snd (compute_a_slow_result_cache (PInt 10) w)) = sleeps w.
Proof.
  apply (result_survives_three_calls [PBool true]
           [PInt 1; PFloat 2; PStr "a"] (PInt 10)).
  - left. now exists 10%Z.
  - cbn. lia.
Defined.

(** X18. A call that raises stores nothing and is never served from the
    table: [compute_a_slow_result_cache(None)] sleeps and raises
    [TypeError] every time, and leaves the table as it was. *)
Theorem exception_is_not_cached (history : list pyval) :
  compute_a_slow_result_cache PNone (after history initial)
  = (inl TypeError,
     {| table := table (after history initial);
        sleeps := S (sleeps (after history initial)) |}).
Proof.
  pose proof (CacheFacts.after_sound history (fun _ => False) initial
                CacheFacts.initial_sound) as Ht.
  unfold compute_a_slow_result_cache, lru_cache.
  destruct (find (make_key PNone) (table (after history initial)))
    as [[k' v']|] eqn:Hfind; [|reflexivity].
  exfalso. apply CacheFacts.find_some in Hfind. destruct Hfind as [Hin Hk].
  destruct (Ht k' v' Hin) as [y [_ [Hy Hv]]]. subst k'.
  destruct y; cbn in Hk, Hv; discriminate.
Qed.

End CacheExtra.

(** ** More arguments than the table holds *)

Module CacheThrash.

Import Cache CachePlain.

Section FiveArguments.

Variables a b c d e : Z.
Hypothesis distinct : NoDup [a; b; c; d; e].

Lemma distinct_eqb :
  ((a =? b) = false /\ (a =? c) = false /\ (a =? d) = false /\ (a =? e) = false /\
   (b =? a) = false /\ (b =? c) = false /\ (b =? d) = false /\ (b =? e) = false /\
   (c =? a) = false /\ (c =? b) = false /\ (c =? d) = false /\ (c =? e) = false /\
   (d =? a) = false /\ (d =? b) = false /\ (d =? c) = false /\ (d =? e) = false /\
   (e =? a) = false /\ (e =? b) = false /\ (e =? c) = false /\ (e =? d) = false)%Z.
Proof.
  pose proof distinct as H.
  inversion H as [|? ? Ha H1]; subst. inversion H1 as [|? ? Hb H2]; subst.
  inversion H2 as [|? ? Hc H3]; subst. inversion H3 as [|? ? Hd H4]; subst.
  cbn [In] in Ha, Hb, Hc, Hd.
  repeat split; apply Z.eqb_neq; intros E; subst; tauto.
Qed.

(** One round over the five arguments, from an empty table or from the
    table a round leaves: five misses. *)
Lemma round_misses w :
  map fst (table w) = []
  \/ map fst (table w)
     = [Bare (PInt e); Bare (PInt d); Bare (PInt c); Bare (PInt b)] ->
  map fst (table (after [PInt a; PInt b; PInt c; PInt d; PInt e] w))
  = [Bare (PInt e); Bare (PInt d); Bare (PInt c); Bare (PInt b)] /\
  sleeps (after [PInt a; PInt b; PInt c; PInt d; PInt e] w) = (sleeps w + 5)%nat.
Proof.
  destruct distinct_eqb as
    [Hab [Hac [Had [Hae [Hba [Hbc [Hbd [Hbe [Hca [Hcb [Hcd [Hce
     [Hda [Hdb [Hdc [Hde [Hea [Heb [Hec Hed]]]]]]]]]]]]]]]]]]].
  destruct w as [t s]. cbn [table sleeps].
  intros [Ht|Ht].
  - destruct t; [|discriminate].
    unfold after, compute_a_slow_result_cache, lru_cache, time_sleep.
    repeat (progress (cbn -[Z.mul]; rewrite ?Hab, ?Hac, ?Had, ?Hae, ?Hba, ?Hbc, ?Hbd, ?Hbe, ?Hca, ?Hcb,
      ?Hcd, ?Hce, ?Hda, ?Hdb, ?Hdc, ?Hde, ?Hea, ?Heb, ?Hec, ?Hed)).
    split; [reflexivity|lia].
  - destruct t as [|[k1 v1] [|[k2 v2] [|[k3 v3] [|[k4 v4] [|? ?]]]]];
      try discriminate.
    cbn in Ht. injection Ht as -> -> -> ->.
    unfold after, compute_a_slow_result_cache, lru_cache, time_sleep.
    repeat (progress (cbn -[Z.mul]; rewrite ?Hab, ?Hac, ?Had, ?Hae, ?Hba, ?Hbc, ?Hbd, ?Hbe, ?Hca, ?Hcb,
      ?Hcd, ?Hce, ?Hda, ?Hdb, ?Hdc, ?Hde, ?Hea, ?Heb, ?Hec, ?Hed)).
    split; [reflexivity|lia].
Qed.

Lemma rounds_miss : forall rounds w,
  map fst (table w) = []
  \/ map fst (table w)
     = [Bare (PInt e); Bare (PInt d); Bare (PInt c); Bare (PInt b)] ->
  sleeps (after (cycle rounds [PInt a; PInt b; PInt c; PInt d; PInt e]) w)
  = (sleeps w + 5 * rounds)%nat.
Proof.
  induction rounds as [|r IH]; intros w Hw; cbn [cycle].
  - cbn [after]. lia.
  - rewrite CacheExtra.after_app.
    destruct (round_misses w Hw) as [Hkeys Hsleeps].
    rewrite IH by (now right). rewrite Hsleeps. lia.
Qed.

End FiveArguments.

(** X19. Five different [int] arguments called in rotation defeat the
    table of four entries: from the empty table every call is a miss, so
    after any number of rounds the function has slept once per call. *)
Theorem five_arguments_never_hit (a b c d e : Z) (rounds : nat) :
  NoDup [a; b; c; d; e] ->
  sleeps (after (cycle rounds [PInt a; PInt b; PInt c; PInt d; PInt e]) initial)
  = (5 * rounds)%nat.
Proof.
  intros Hd. rewrite (rounds_miss a b c d e Hd rounds initial); [reflexivity|].
  now left.
Qed.

Lemma five_arguments_never_hit_witness :
  sleeps (after (cycle 3 [PInt 1; PInt 2; PInt 3; PInt 4; PInt 5]) initial)
  = (5 * 3)%nat.
Proof.
  apply (five_arguments_never_hit 1 2 3 4 5 3).
  repeat constructor; cbn; intuition discriminate.
Defined.

End CacheThrash.
